(** * 2bttns: score resolution, game-object listing and mutation

    A shallow embedding of the tRPC procedures [getPlayerScores] and
    [updateById] and of the pagination and filter logic of the
    [GameObjectsTable] component, with the relational store they query
    written out as tables. *)

From Stdlib Require Import List String Ascii Bool ZArith QArith Lia.
From Stdlib Require Import Permutation Sorted.
Import ListNotations.

Open Scope string_scope.
Open Scope list_scope.

(** ** Scalars *)

(** [Prisma.Decimal]: an arbitrary-precision decimal, kept as the rational
    it denotes. *)
Definition Decimal := Q.

(** A JavaScript [Date], kept as its time value (milliseconds since the
    epoch). *)
Definition DateTime := Z.

(** What the JavaScript runtime supplies to the shaping code:
    the [number] type with its order, [Decimal.prototype.toNumber], which
    rounds to the nearest [number] and so preserves the order, and
    [Date.prototype.toISOString]. *)
Class JsRuntime : Type := {
  number : Type;
  number_le : number -> number -> Prop;
  toNumber : Decimal -> number;
  toNumber_le :
    forall a b : Decimal, (a <= b)%Q -> number_le (toNumber a) (toNumber b);
  toISOString : DateTime -> string
}.

(** ** Rows of the relational store (the [@prisma/client] model types) *)

Record Tag : Type := {
  tag_id : string;
  tag_name : string
}.

Record Game : Type := {
  game_id : string
}.

Record GameObject : Type := {
  go_id : string;
  go_createdAt : DateTime;
  go_updatedAt : DateTime;
  go_name : string;
  go_description : option string
}.

Record PlayerScore : Type := {
  ps_createdAt : DateTime;
  ps_updatedAt : DateTime;
  ps_score : Decimal;
  ps_playerId : string;
  ps_gameObjectId : string
}.

(** The store: one list per table, in storage order, and one list of pairs
    per many-to-many relation ([GameObject]-[Tag] and the [inputToGames]
    relation between [Tag] and [Game]). *)
Record Store : Type := {
  tags : list Tag;
  games : list Game;
  gameObjects : list GameObject;
  playerScores : list PlayerScore;
  gameObjectTags : list (string * string);   (* (gameObject id, tag id) *)
  inputToGames : list (string * string)      (* (tag id, game id) *)
}.

(** ** Helpers on identifiers *)

Definition str_in (s : string) (l : list string) : bool :=
  existsb (String.eqb s) l.

Definition pair_in (a b : string) (l : list (string * string)) : bool :=
  existsb (fun p => String.eqb (fst p) a && String.eqb (snd p) b) l.

(** ** The Prisma queries the procedures issue *)

(** [tag.findMany({ where: { inputToGames: { some: { id } } } })]:
    the tags with at least one related game whose id is [id]. *)
Definition tag_findMany_inputToGames_some (db : Store) (id : string)
  : list Tag :=
  filter
    (fun t =>
       existsb
         (fun g => pair_in (tag_id t) (game_id g) (inputToGames db)
                   && String.eqb (game_id g) id)
         (games db))
    (tags db).

(** [gameObject.findMany({ where: { tags: { some: { id: { in: ids } } } } })]:
    the game objects with at least one related tag whose id is in [ids]. *)
Definition gameObject_findMany_tags_some_in (db : Store) (ids : list string)
  : list GameObject :=
  filter
    (fun o =>
       existsb
         (fun t => pair_in (go_id o) (tag_id t) (gameObjectTags db)
                   && str_in (tag_id t) ids)
         (tags db))
    (gameObjects db).

Definition score_desc (a b : PlayerScore) : Prop :=
  (ps_score b <= ps_score a)%Q.

(** [orderBy: { score: "desc" }]: the store returns the selected rows by
    decreasing score. The query names no other column, so the order of rows
    of equal score is the store's own: every rearrangement of the rows that
    is sorted by decreasing score is an answer the store may give. *)
Class StoreOrder : Type := {
  orderBy_score_desc : list PlayerScore -> list PlayerScore;
  orderBy_score_desc_perm :
    forall l, Permutation (orderBy_score_desc l) l;
  orderBy_score_desc_sorted :
    forall l, StronglySorted score_desc (orderBy_score_desc l)
}.

(** One ordering a store can follow: rows of equal score in storage
    order. *)
Fixpoint insert_desc (x : PlayerScore) (l : list PlayerScore)
  : list PlayerScore :=
  match l with
  | [] => [x]
  | y :: l' =>
      if Qle_bool (ps_score y) (ps_score x)
      then x :: y :: l'
      else y :: insert_desc x l'
  end.

Definition storage_order_sort (l : list PlayerScore) : list PlayerScore :=
  fold_right insert_desc [] l.

(** Another one: rows of equal score by the id of their game object, as
    when the store reads them through the index of their key. *)
Definition key_before (x y : PlayerScore) : bool :=
  negb (Qle_bool (ps_score x) (ps_score y))
  || (Qeq_bool (ps_score x) (ps_score y)
      && String.leb (ps_gameObjectId x) (ps_gameObjectId y)).

Fixpoint insert_key (x : PlayerScore) (l : list PlayerScore)
  : list PlayerScore :=
  match l with
  | [] => [x]
  | y :: l' =>
      if key_before x y
      then x :: y :: l'
      else y :: insert_key x l'
  end.

Definition key_order_sort (l : list PlayerScore) : list PlayerScore :=
  fold_right insert_key [] l.

(** A [PlayerScore] row with its optional [gameObject] relation, the type
    [PlayerScore & { gameObject?: GameObject }] of the source. *)
Record PlayerScoreRow : Type := {
  row : PlayerScore;
  gameObject : option GameObject
}.

(** [include: { gameObject: b }]: the related game object is loaded through
    the row's [gameObjectId] when [b] holds, and left out otherwise. *)
Definition include_gameObject (db : Store) (b : bool) (ps : PlayerScore)
  : PlayerScoreRow :=
  {| row := ps;
     gameObject :=
       if b
       then find (fun o => String.eqb (go_id o) (ps_gameObjectId ps))
                 (gameObjects db)
       else None |}.

(** [playerScore.findMany({ where: { gameObjectId: { in: ids }, playerId },
    include: { gameObject: b }, orderBy: { score: "desc" } })]. *)
Definition playerScore_findMany {ord : StoreOrder} (db : Store)
  (ids : list string) (playerId : string) (b : bool)
  : list PlayerScoreRow :=
  map (include_gameObject db b)
      (orderBy_score_desc
         (filter
            (fun ps => str_in (ps_gameObjectId ps) ids
                       && String.eqb (ps_playerId ps) playerId)
            (playerScores db))).

(** ** Procedure results *)

Inductive TRPC_ERROR_CODE : Type :=
| UNAUTHORIZED
| BAD_REQUEST
| INTERNAL_SERVER_ERROR.

Record TRPCError : Type := {
  code : TRPC_ERROR_CODE;
  message : string
}.

(** The store operations a procedure has issued. *)
Inductive DbCall : Type :=
| TagFindMany
| GameObjectFindMany
| PlayerScoreFindMany
| GameObjectUpdate.

Inductive Result (A : Type) : Type :=
| Ok (a : A)
| Err (e : TRPCError).
Arguments Ok {A} a.
Arguments Err {A} e.

(** What a procedure acts on: the store behind the Prisma client and the
    log of the operations issued on it. *)
Record World : Type := {
  db : Store;
  calls : list DbCall
}.

(** A procedure body: it reads and updates the world and either returns a
    value or throws. *)
Definition Proc (A : Type) : Type := World -> Result A * World.

Definition ret {A : Type} (a : A) : Proc A := fun w => (Ok a, w).

Definition throw {A : Type} (e : TRPCError) : Proc A :=
  fun w => (Err e, w).

Definition bind {A B : Type} (m : Proc A) (k : A -> Proc B) : Proc B :=
  fun w =>
    match m w with
    | (Ok a, w') => k a w'
    | (Err e, w') => (Err e, w')
    end.

(** [await] of a store read: the call is logged and its rows returned. *)
Definition await {A : Type} (c : DbCall) (read : Store -> A) : Proc A :=
  fun w => (Ok (read (db w)), {| db := db w; calls := calls w ++ [c] |}).

Notation "x <- m ;; k" := (bind m (fun x => k))
  (at level 61, m at next level, right associativity).
Notation "m ;;; k" := (bind m (fun _ => k))
  (at level 61, right associativity).

(** ** [getPlayerScores] *)

(** A value as it arrives in the query string, before validation. *)
Inductive JsValue : Type :=
| JUndefined
| JNull
| JBool (b : bool)
| JNumber (q : Q)
| JString (s : string).

Record RawInput : Type := {
  raw_game_id : JsValue;
  raw_player_id : JsValue;
  raw_include_game_objects : JsValue
}.

Record Input : Type := {
  in_game_id : string;
  in_player_id : string;
  include_game_objects : bool
}.

(** [z.string()] *)
Definition z_string (v : JsValue) : option string :=
  match v with
  | JString s => Some s
  | _ => None
  end.

(** [z.preprocess((value) => value === "true", z.boolean()).default(false)] *)
Definition z_include_game_objects (v : JsValue) : bool :=
  let preprocess (value : JsValue) : bool :=
    match value with
    | JString s => String.eqb s "true"
    | _ => false
    end in
  match v with
  | JUndefined => preprocess (JBool false)
  | _ => preprocess v
  end.

(** The [.input(z.object({ ... }))] validator: a failure is reported by the
    framework as [BAD_REQUEST], with the offending keys. *)
Definition parse_input (raw : RawInput) : Result Input :=
  match z_string (raw_game_id raw), z_string (raw_player_id raw) with
  | Some g, Some p =>
      Ok {| in_game_id := g;
            in_player_id := p;
            include_game_objects :=
              z_include_game_objects (raw_include_game_objects raw) |}
  | None, Some _ => Err {| code := BAD_REQUEST; message := "game_id" |}
  | Some _, None => Err {| code := BAD_REQUEST; message := "player_id" |}
  | None, None =>
      Err {| code := BAD_REQUEST; message := "game_id,player_id" |}
  end.

Record AuthData : Type := {
  auth_type : string;
  userId : string
}.

Record Ctx : Type := {
  authData : AuthData
}.

Section Shaping.
Context {js : JsRuntime} {ord : StoreOrder}.

(** The element types of the [output] schema. *)
Record GameObjectOut : Type := {
  out_go_id : string;
  out_go_createdAt : string;
  out_go_updatedAt : string;
  out_go_name : string;
  out_go_description : option string
}.

Record PlayerScoreOut : Type := {
  out_createdAt : string;
  out_updatedAt : string;
  out_score : number;
  out_playerId : string;
  out_gameObjectId : string;
  out_gameObject : option GameObjectOut
}.

Record Output : Type := {
  out_playerScores : list PlayerScoreOut
}.

(** The callback of [playerScores.map] (source lines 104-118). *)
Definition shape_gameObject (o : GameObject) : GameObjectOut :=
  {| out_go_id := go_id o;
     out_go_createdAt := toISOString (go_createdAt o);
     out_go_updatedAt := toISOString (go_updatedAt o);
     out_go_name := go_name o;
     out_go_description := go_description o |}.

Definition shape (playerScore : PlayerScoreRow) : PlayerScoreOut :=
  {| out_createdAt := toISOString (ps_createdAt (row playerScore));
     out_updatedAt := toISOString (ps_updatedAt (row playerScore));
     out_score := toNumber (ps_score (row playerScore));
     out_playerId := ps_playerId (row playerScore);
     out_gameObjectId := ps_gameObjectId (row playerScore);
     out_gameObject :=
       match gameObject playerScore with
       | Some o => Some (shape_gameObject o)
       | None => None
       end |}.

(** The resolver passed to [.query] (source lines 54-124). *)
Definition query (ctx : Ctx) (input : Input) : Proc Output :=
  (if String.eqb (auth_type (authData ctx)) "player_token"
   then
     if negb (String.eqb (userId (authData ctx)) (in_player_id input))
     then throw {| code := UNAUTHORIZED;
                   message := "Player " ++ userId (authData ctx)
                     ++ " is only authorized to get their own scores" |}
     else ret tt
   else ret tt) ;;;
  gameTags <- await TagFindMany
    (fun prisma =>
       tag_findMany_inputToGames_some prisma (in_game_id input)) ;;
  gameObjects <- await GameObjectFindMany
    (fun prisma =>
       gameObject_findMany_tags_some_in prisma (map tag_id gameTags)) ;;
  playerScores <- await PlayerScoreFindMany
    (fun prisma =>
       playerScore_findMany prisma (map go_id gameObjects)
         (in_player_id input) (include_game_objects input)) ;;
  let outputData := map shape playerScores in
  ret {| out_playerScores := outputData |}.

(** The procedure: input validation, then the resolver. *)
Definition getPlayerScores (ctx : Ctx) (raw : RawInput) : Proc Output :=
  match parse_input raw with
  | Ok input => query ctx input
  | Err e => throw e
  end.

End Shaping.

(** ** [GameObjectsTable]: the filter sent to [getAll] and [getCount] *)

Record TextFilter : Type := {
  contains : string
}.

Inductive FilterMode : Type :=
| OR
| AND.

(** The [filter] argument of [gameObjects.getAll] and
    [gameObjects.getCount]; [tag] carries the id of the tag to match. *)
Record Filter : Type := {
  mode : option FilterMode;
  filter_id : option TextFilter;
  filter_name : option TextFilter;
  filter_description : option TextFilter;
  filter_tag : option string
}.

(** JavaScript truthiness of a string. *)
Definition truthy (s : string) : bool :=
  match s with
  | EmptyString => false
  | String _ _ => true
  end.

(** The [filter] the table builds from its [globalFilter] state and its
    [tag] prop (source lines 52-61 and 80-89, the same expression). *)
Definition table_filter (globalFilter : string) (tag : option string)
  : Filter :=
  if truthy globalFilter
  then {| mode := Some OR;
          filter_id := Some {| contains := globalFilter |};
          filter_name := Some {| contains := globalFilter |};
          filter_description := None;
          filter_tag := tag |}
  else {| mode := None;
          filter_id := None;
          filter_name := None;
          filter_description := None;
          filter_tag := tag |}.

(** [includes needle hay]: [needle] occurs in [hay] as a substring. *)
Fixpoint includes (needle hay : string) : bool :=
  String.prefix needle hay
  || match hay with
     | EmptyString => false
     | String _ hay' => includes needle hay'
     end.

(** Modelled from the spec: the [where] clause of [gameObjects.getAll] and
    [gameObjects.getCount], whose router file is not among the sources.
    Each text filter that is supplied tests its own field for the substring;
    the supplied tests are combined by disjunction in mode [OR] and by
    conjunction otherwise; the tag filter, when supplied, requires the game
    object to carry exactly that tag. *)
Definition text_tests (f : Filter) (o : GameObject) : list bool :=
  match filter_id f with
  | Some t => [includes (contains t) (go_id o)]
  | None => []
  end
  ++ match filter_name f with
     | Some t => [includes (contains t) (go_name o)]
     | None => []
     end
  ++ match filter_description f with
     | Some t =>
         [match go_description o with
          | Some d => includes (contains t) d
          | None => false
          end]
     | None => []
     end.

Definition matches (st : Store) (f : Filter) (o : GameObject) : bool :=
  match mode f with
  | Some OR => existsb (fun b => b) (text_tests f o)
  | _ => forallb (fun b => b) (text_tests f o)
  end
  && match filter_tag f with
     | Some t => pair_in (go_id o) t (gameObjectTags st)
     | None => true
     end.

(** The rows the listing selects before sorting and slicing, and the
    companion count. *)
Definition getAll_where (st : Store) (f : Filter) : list GameObject :=
  filter (matches st f) (gameObjects st).

Definition getCount (st : Store) (f : Filter) : Z :=
  Z.of_nat (List.length (getAll_where st f)).

(** ** [GameObjectsTable]: page count and page-index adjustment *)

Record PaginationState : Type := {
  pageIndex : Z;
  pageSize : Z
}.

(** [Math.ceil(count / pageSize)] on integers, for a non-zero [pageSize]. *)
Definition ceil_div (count pageSize : Z) : Z :=
  (- ((- count) / pageSize))%Z.

(** The [pageCount] memo (source lines 218-221); [data] is the result of the
    count query, absent while it is loading. *)
Definition pageCount (data : option Z) (pagination : PaginationState) : Z :=
  match data with
  | None => 0%Z
  | Some count => ceil_div count (pageSize pagination)
  end.

(** The body of the effect on [pageCount] and [pageIndex] (source lines
    223-237): [Some] is the state passed to [setPagination], [None] means
    the effect returns without an update. *)
Definition adjustPageIndex (pageCount : Z) (prev : PaginationState)
  : option PaginationState :=
  if (pageIndex prev >=? pageCount)%Z
  then Some {| pageIndex := (pageCount - 1)%Z; pageSize := pageSize prev |}
  else if (pageCount =? 0)%Z then None
  else if (pageIndex prev <? 0)%Z
  then Some {| pageIndex := 0%Z; pageSize := pageSize prev |}
  else None.

(** The effect re-runs after each update it makes, until it makes none. *)
Fixpoint rerun (fuel : nat) (pageCount : Z) (p : PaginationState)
  : PaginationState :=
  match fuel with
  | O => p
  | S fuel' =>
      match adjustPageIndex pageCount p with
      | Some p' => rerun fuel' pageCount p'
      | None => p
      end
  end.

(** ** [updateById] *)

Record UpdateData : Type := {
  data_id : option string;
  data_name : option string;
  data_description : option string;
  data_tags : option (list string)
}.

Record UpdateInput : Type := {
  input_id : string;
  input_data : UpdateData
}.

(** The [data] argument of [gameObject.update]: an absent scalar leaves the
    column as it is; [connect] lists the tags to relate to the row. *)
Record GameObjectUpdateData : Type := {
  set_id : option string;
  set_name : option string;
  set_description : option string;
  tags_connect : option (list string)
}.

Definition or_else {A : Type} (o : option A) (d : A) : A :=
  match o with
  | Some a => a
  | None => d
  end.

Definition has_gameObject (st : Store) (id : string) : bool :=
  existsb (fun o => String.eqb (go_id o) id) (gameObjects st).

Definition has_tag (st : Store) (id : string) : bool :=
  existsb (fun t => String.eqb (tag_id t) id) (tags st).

(** The pairs [connect] adds for the row [id]: one per listed tag that is
    not related to it yet. *)
Fixpoint connect_pairs (id : string) (ts : list string)
  (rel : list (string * string)) : list (string * string) :=
  match ts with
  | [] => rel
  | t :: ts' =>
      connect_pairs id ts'
        (if pair_in id t rel then rel else rel ++ [(id, t)])
  end.

Definition rename_fst (old new : string) (p : string * string)
  : string * string :=
  if String.eqb (fst p) old then (new, snd p) else p.

(** The update writes a column of the row when its data carries an id, a
    name or a description; connecting tags writes none. *)
Definition writes_column (data : GameObjectUpdateData) : bool :=
  match set_id data, set_name data, set_description data with
  | None, None, None => false
  | _, _, _ => true
  end.

(** [gameObject.update({ where: { id }, data })] on the store. It fails when
    no row has this id, when a tag to connect does not exist, or when the new
    id is taken by another row. A change of id is carried over to the rows
    that reference it; [updatedAt] becomes [now] when the update writes a
    column of the row and is left as it is otherwise. *)
Definition gameObject_update (now : DateTime) (id : string)
  (data : GameObjectUpdateData) (st : Store)
  : option (GameObject * Store) :=
  match find (fun o => String.eqb (go_id o) id) (gameObjects st) with
  | None => None
  | Some o =>
      let id' := or_else (set_id data) (go_id o) in
      let ts := or_else (tags_connect data) [] in
      if negb (forallb (has_tag st) ts) then None
      else if negb (String.eqb id' id) && has_gameObject st id' then None
      else
        let o' := {| go_id := id';
                     go_createdAt := go_createdAt o;
                     go_updatedAt :=
                       if writes_column data
                       then now else go_updatedAt o;
                     go_name := or_else (set_name data) (go_name o);
                     go_description :=
                       match set_description data with
                       | Some d => Some d
                       | None => go_description o
                       end |} in
        Some (o',
              {| tags := tags st;
                 games := games st;
                 gameObjects :=
                   map (fun x => if String.eqb (go_id x) id then o' else x)
                       (gameObjects st);
                 playerScores :=
                   map (fun ps =>
                          if String.eqb (ps_gameObjectId ps) id
                          then {| ps_createdAt := ps_createdAt ps;
                                  ps_updatedAt := ps_updatedAt ps;
                                  ps_score := ps_score ps;
                                  ps_playerId := ps_playerId ps;
                                  ps_gameObjectId := id' |}
                          else ps)
                       (playerScores st);
                 gameObjectTags :=
                   connect_pairs id' ts
                     (map (rename_fst id id') (gameObjectTags st));
                 inputToGames := inputToGames st |})
  end.

Record UpdateOutput : Type := {
  updatedGameObject : GameObject
}.

(** The mutation (source lines 30-50): one [gameObject.update], whose
    failure the framework reports as [INTERNAL_SERVER_ERROR]. *)
Definition updateById (now : DateTime) (input : UpdateInput)
  : Proc UpdateOutput :=
  fun w =>
    let data :=
      {| set_id := data_id (input_data input);
         set_name := data_name (input_data input);
         set_description := data_description (input_data input);
         tags_connect := data_tags (input_data input) |} in
    let w' := {| db := db w; calls := calls w ++ [GameObjectUpdate] |} in
    match gameObject_update now (input_id input) data (db w) with
    | Some (updatedGameObject, st') =>
        (Ok {| updatedGameObject := updatedGameObject |},
         {| db := st'; calls := calls w' |})
    | None =>
        (Err {| code := INTERNAL_SERVER_ERROR;
                message := "gameObject.update" |}, w')
    end.

(** ** Vocabulary of the statements *)

(** A request whose two ids are strings, as the query string delivers
    them. *)
Definition request (g p : string) (inc : JsValue) : RawInput :=
  {| raw_game_id := JString g;
     raw_player_id := JString p;
     raw_include_game_objects := inc |}.

(** The caller passes the check at the head of the resolver: it does not
    hold a player token, or it holds the token of the requested player. *)
Definition authorized (ctx : Ctx) (p : string) : bool :=
  negb (String.eqb (auth_type (authData ctx)) "player_token")
  || String.eqb (userId (authData ctx)) p.

(** The tag [t] is associated with the game [g] through [inputToGames]. *)
Definition game_tag (st : Store) (g : string) (t : Tag) : Prop :=
  In t (tags st) /\
  exists gm, In gm (games st) /\ game_id gm = g /\
             In (tag_id t, g) (inputToGames st).

(** The game object with id [oid] carries at least one tag associated with
    the game [g]. *)
Definition carries_game_tag (st : Store) (g oid : string) : Prop :=
  exists o t, In o (gameObjects st) /\ go_id o = oid /\
              In (oid, tag_id t) (gameObjectTags st) /\ game_tag st g t.

(** The three lookups of the resolver, composed. *)
Definition resolve {ord : StoreOrder} (st : Store) (g p : string)
  (b : bool) : list PlayerScoreRow :=
  playerScore_findMany st
    (map go_id
       (gameObject_findMany_tags_some_in st
          (map tag_id (tag_findMany_inputToGames_some st g))))
    p b.

(** The score rows that qualify for [(g, p)], in storage order. *)
Definition qualifying (st : Store) (g p : string) : list PlayerScore :=
  filter
    (fun ps =>
       str_in (ps_gameObjectId ps)
         (map go_id
            (gameObject_findMany_tags_some_in st
               (map tag_id (tag_findMany_inputToGames_some st g))))
       && String.eqb (ps_playerId ps) p)
    (playerScores st).

(** The world after the three reads of a successful run. *)
Definition after_reads (w : World) : World :=
  {| db := db w;
     calls := calls w ++ [TagFindMany; GameObjectFindMany;
                          PlayerScoreFindMany] |}.

(** [needle] occurs in [hay]. *)
Definition substring_of (needle hay : string) : Prop :=
  exists pre post : string, hay = (pre ++ needle ++ post)%string.

(** ** Sample data *)

(** A runtime for the examples: the sample scores are integers, which
    [toNumber] represents exactly, and every sample row carries the epoch
    as its timestamps. *)
Definition sample_runtime : JsRuntime :=
  {| number := Q;
     number_le := Qle;
     toNumber := fun d => d;
     toNumber_le := fun _ _ H => H;
     toISOString := fun _ => "1970-01-01T00:00:00.000Z" |}.

Definition sample_gameObject (id : string) : GameObject :=
  {| go_id := id;
     go_createdAt := 0%Z;
     go_updatedAt := 0%Z;
     go_name := "name of " ++ id;
     go_description := None |}.

Definition sample_score (p o : string) (s : Decimal) : PlayerScore :=
  {| ps_createdAt := 0%Z;
     ps_updatedAt := 0%Z;
     ps_score := s;
     ps_playerId := p;
     ps_gameObjectId := o |}.

(** Game [g1] takes tag [t1]; game [g2] takes [t1] and [t2]. Game object
    [go1] carries both tags, [go2] only [t2], [go3] and [go4] only [t1]. *)
Definition sample_store : Store :=
  {| tags := [ {| tag_id := "t1"; tag_name := "A" |};
               {| tag_id := "t2"; tag_name := "B" |} ];
     games := [ {| game_id := "g1" |}; {| game_id := "g2" |} ];
     gameObjects := map sample_gameObject ["go1"; "go2"; "go3"; "go4"];
     playerScores :=
       [ sample_score "p1" "go1" (3 # 1);
         sample_score "p1" "go2" (9 # 1);
         sample_score "p2" "go1" (7 # 1);
         sample_score "p1" "go3" (10 # 1);
         sample_score "p1" "go4" (1 # 1) ];
     gameObjectTags :=
       [ ("go1", "t1"); ("go1", "t2"); ("go2", "t2");
         ("go3", "t1"); ("go4", "t1") ];
     inputToGames := [ ("t1", "g1"); ("t1", "g2"); ("t2", "g2") ] |}.

Definition sample_world : World := {| db := sample_store; calls := [] |}.

(** The example of the specification: game [g1] takes tag [t1]; [go1]
    carries [t1] and [go2] carries [t2]; player [p1] has 5 on [go1] and 9 on
    [go2]. *)
Definition example_store : Store :=
  {| tags := [ {| tag_id := "t1"; tag_name := "t1" |};
               {| tag_id := "t2"; tag_name := "t2" |} ];
     games := [ {| game_id := "g1" |} ];
     gameObjects := map sample_gameObject ["go1"; "go2"];
     playerScores :=
       [ sample_score "p1" "go1" (5 # 1);
         sample_score "p1" "go2" (9 # 1) ];
     gameObjectTags := [ ("go1", "t1"); ("go2", "t2") ];
     inputToGames := [ ("t1", "g1") ] |}.

(** Two score rows of player [p1] with the same score, the one on [go3]
    stored before the one on [go1]; both game objects carry the tag of
    game [g1]. *)
Definition tie_store : Store :=
  {| tags := [ {| tag_id := "t1"; tag_name := "A" |} ];
     games := [ {| game_id := "g1" |} ];
     gameObjects := map sample_gameObject ["go1"; "go3"];
     playerScores :=
       [ sample_score "p1" "go3" (7 # 1);
         sample_score "p1" "go1" (7 # 1) ];
     gameObjectTags := [ ("go1", "t1"); ("go3", "t1") ];
     inputToGames := [ ("t1", "g1") ] |}.

(** A game object whose description, and neither its id nor its name,
    mentions boards. *)
Definition chess : GameObject :=
  {| go_id := "go-chess";
     go_createdAt := 0%Z;
     go_updatedAt := 0%Z;
     go_name := "Chess";
     go_description := Some "a board game" |}.

Definition chess_store : Store :=
  {| tags := [];
     games := [];
     gameObjects := [chess];
     playerScores := [];
     gameObjectTags := [];
     inputToGames := [] |}.

(** An update of [go2] that renames it and connects tag [t1]. *)
Definition sample_update : UpdateInput :=
  {| input_id := "go2";
     input_data := {| data_id := None;
                      data_name := Some "renamed";
                      data_description := None;
                      data_tags := Some ["t1"] |} |}.

Definition api_key_ctx : Ctx :=
  {| authData := {| auth_type := "api_key_token"; userId := "" |} |}.

Definition player_ctx (id : string) : Ctx :=
  {| authData := {| auth_type := "player_token"; userId := id |} |}.

(** ** [GameObjectsTable]: sorting, the listing query and the tag cell *)

(** An entry of the table's [SortingState]. *)
Record ColumnSort : Type := {
  cs_id : string;
  cs_desc : bool
}.

Inductive SortOrder : Type :=
| asc
| desc.

(** [getSort] (source lines 38-45), with the [sorting] state it closes
    over. *)
Definition getSort (sorting : list ColumnSort) (id : string)
  : option SortOrder :=
  match find (fun s => String.eqb (cs_id s) id) sorting with
  | None => None
  | Some result => Some (if cs_desc result then desc else asc)
  end.

Record Sort : Type := {
  sort_id : option SortOrder;
  sort_name : option SortOrder;
  sort_description : option SortOrder;
  sort_tags : option SortOrder;
  sort_updatedAt : option SortOrder
}.

Record GetAllInput : Type := {
  includeTags : bool;
  skip : Z;
  take : Z;
  getAll_filter : Filter;
  getAll_sort : Sort
}.

(** The argument of [api.gameObjects.getAll.useQuery] (source lines
    48-69). *)
Definition gameObjectsQuery_input (pagination : PaginationState)
  (globalFilter : string) (sorting : list ColumnSort) (tag : option string)
  : GetAllInput :=
  {| includeTags := true;
     skip := (pageIndex pagination * pageSize pagination)%Z;
     take := pageSize pagination;
     getAll_filter := table_filter globalFilter tag;
     getAll_sort :=
       {| sort_id := getSort sorting "id";
          sort_name := getSort sorting "name";
          sort_description := getSort sorting "description";
          sort_tags := getSort sorting "tags";
          sort_updatedAt := getSort sorting "updatedAt" |} |}.

Record TagOption : Type := {
  label : string;
  value : string
}.

(** The [selected] options of the tags cell (source lines 172-177);
    [None] is a cell value that is not an array. *)
Definition selected (tags : option (list Tag)) : list TagOption :=
  match tags with
  | Some ts =>
      map (fun tag =>
             {| label := if truthy (tag_name tag)
                         then tag_name tag
                         else "Untitled Tag";
                value := tag_id tag |})
          ts
  | None => []
  end.

(** ** The client side of a mutation *)

Definition newline : string := String (ascii_of_nat 10) EmptyString.

(** A value thrown in the browser. *)
Record JsError : Type := {
  instanceof_Error : bool;
  error_message : string
}.

(** How a promise settles. *)
Inductive Settled : Type :=
| Resolved
| Rejected (error : JsError).

(** What the user and the query cache observe. *)
Inductive UiEvent : Type :=
| ConsoleError
| WindowAlert (msg : string)
| Invalidate.

Record Client : Type := {
  server : World;
  events : list UiEvent
}.

(** [updateGameObjectMutation.mutateAsync]: the procedure runs on the
    server; its error reaches the caller as a rejection with an [Error]. *)
Definition mutateAsync (now : DateTime) (input : UpdateInput) (c : Client)
  : Settled * Client :=
  match updateById now input (server c) with
  | (Ok _, w') => (Resolved, {| server := w'; events := events c |})
  | (Err e, w') =>
      (Rejected {| instanceof_Error := true; error_message := message e |},
       {| server := w'; events := events c |})
  end.

Definition emit (e : UiEvent) (c : Client) : Client :=
  {| server := server c; events := events c ++ [e] |}.

(** [handleUpdateGameObject] (source lines 99-110): the mutation, then the
    invalidation of the cached queries; a rejection is caught, logged and
    reported by an alert. *)
Definition handleUpdateGameObject (now : DateTime) (id : string)
  (data : UpdateData) (c : Client) : Settled * Client :=
  match mutateAsync now {| input_id := id; input_data := data |} c with
  | (Resolved, c') => (Resolved, emit Invalidate c')
  | (Rejected error, c') =>
      (Resolved,
       emit (WindowAlert ("Error updating tag" ++ newline
                          ++ " See console for details"))
            (emit ConsoleError c'))
  end.

(** The data each editable cell passes to [handleUpdateGameObject] (source
    lines 133-136, 147-150, 161-164 and 183-187). *)
Definition id_cell_data (nextValue : string) : UpdateData :=
  {| data_id := Some nextValue; data_name := None;
     data_description := None; data_tags := None |}.

Definition name_cell_data (nextValue : string) : UpdateData :=
  {| data_id := None; data_name := Some nextValue;
     data_description := None; data_tags := None |}.

Definition description_cell_data (nextValue : string) : UpdateData :=
  {| data_id := None; data_name := None;
     data_description := Some nextValue; data_tags := None |}.

Definition tags_cell_data (nextTags : list string) : UpdateData :=
  {| data_id := None; data_name := None;
     data_description := None; data_tags := Some nextTags |}.

(** ** [CustomEditable] *)

Record CustomEditableProps : Type := {
  prop_value : option string;
  placeholder : string;
  handleSave : option (string -> Client -> Settled * Client);
  isEditable : bool
}.

(** [handleSubmit] (source lines 70-86) on the [liveValue] state: without a
    [handleSave] nothing happens; when [handleSave] rejects, the live value
    goes back to the [value] prop, the error is logged, and an alert is
    shown if the error is an [Error]. *)
Definition handleSubmit (props : CustomEditableProps) (nextValue : string)
  (liveValue : option string) (c : Client) : option string * Client :=
  match handleSave props with
  | None => (liveValue, c)
  | Some save =>
      match save nextValue c with
      | (Resolved, c') => (liveValue, c')
      | (Rejected error, c') =>
          (prop_value props,
           let c'' := emit ConsoleError c' in
           if instanceof_Error error
           then emit (WindowAlert
                        ("Invalid Update -- Reverting to previous value"
                         ++ newline ++ newline ++ " "
                         ++ error_message error)) c''
           else c'')
      end
  end.

(** ** [PlayGameButton]: [redirectToGame] *)

(** The results [parseInt] can give. *)
Inductive ParsedInt : Type :=
| NaN
| Infinity (negative : bool)
| Integer (z : Z).

Definition isNaN (n : ParsedInt) : bool :=
  match n with
  | NaN => true
  | _ => false
  end.

(** [n < 1] *)
Definition lt_1 (n : ParsedInt) : bool :=
  match n with
  | NaN => false
  | Infinity negative => negative
  | Integer z => (z <? 1)%Z
  end.

Definition number_truthy (n : ParsedInt) : bool :=
  match n with
  | NaN => false
  | Infinity _ => true
  | Integer z => negb (z =? 0)%Z
  end.

(** The value of [numItems] after the prompt: the answer, or what the
    function assigns to it. *)
Inductive ParamValue : Type :=
| PString (s : string)
| PNumber (n : ParsedInt).

Definition param_truthy (v : ParamValue) : bool :=
  match v with
  | PString s => truthy s
  | PNumber n => number_truthy n
  end.

Record Window : Type := {
  prompt : string -> option string;
  location_href : string
}.

Inductive Outcome : Type :=
| Returned
| Alerted (numItems : ParamValue)
| Navigated (path : string) (queryParams : list (string * ParamValue)).

Definition gameId_prompt : string := "Enter game id".

Definition playerId_prompt : string :=
  "Enter player id (random strings are fine for now)".

Definition numItems_prompt : string :=
  "Enter #items (ALL for all items; or leave blank to use the configured default)".

Section RedirectToGame.
Variable toUpperCase : string -> string.
Variable parseInt : string -> ParsedInt.

(** The branch on a non-empty [numItems] answer (source lines 73-90):
    [inl] is the alert that ends the function, [inr] the parameters to
    append. *)
Definition numItems_params (numItems : string)
  : ParamValue + list (string * ParamValue) :=
  if String.eqb (toUpperCase numItems) "ALL"
  then inr (if param_truthy (PString "ALL")
            then [("numItems", PString "ALL")] else [])
  else if negb (isNaN (parseInt numItems))
  then
    let numItems' := parseInt numItems in
    if lt_1 numItems'
    then inl (PNumber numItems')
    else inr (if param_truthy (PNumber numItems')
              then [("numItems", PNumber numItems')] else [])
  else inl (PString numItems).

(** [redirectToGame] (source lines 56-95); [None] is the server side, where
    [window] is undefined. The first component lists the prompts shown. *)
Definition redirectToGame (window : option Window)
  : list string * Outcome :=
  match window with
  | None => ([], Returned)
  | Some w =>
      match prompt w gameId_prompt with
      | None => ([gameId_prompt], Returned)
      | Some gameId =>
          if negb (truthy gameId) then ([gameId_prompt], Returned)
          else
            match prompt w playerId_prompt with
            | None => ([gameId_prompt; playerId_prompt], Returned)
            | Some playerId =>
                if negb (truthy playerId)
                then ([gameId_prompt; playerId_prompt], Returned)
                else
                  let shown :=
                    [gameId_prompt; playerId_prompt; numItems_prompt] in
                  let queryParams :=
                    [("gameId", PString gameId);
                     ("playerId", PString playerId)] in
                  let callbackUrl :=
                    [("callbackUrl",
                      PString (location_href w ++ "/"))] in
                  match prompt w numItems_prompt with
                  | None =>
                      (shown,
                       Navigated "/api/play2bttns"
                         (queryParams ++ callbackUrl))
                  | Some numItems =>
                      if truthy numItems
                      then
                        match numItems_params numItems with
                        | inl v => (shown, Alerted v)
                        | inr ps =>
                            (shown,
                             Navigated "/api/play2bttns"
                               (queryParams ++ ps ++ callbackUrl))
                        end
                      else
                        (shown,
                         Navigated "/api/play2bttns"
                           (queryParams ++ callbackUrl))
                  end
            end
      end
  end.

End RedirectToGame.

(** [parseInt] and [toUpperCase] for the examples, on answers made of
    ASCII letters and decimal digits. *)
Fixpoint sample_toUpperCase (s : string) : string :=
  match s with
  | EmptyString => EmptyString
  | String c s' =>
      let n := nat_of_ascii c in
      String (if (Nat.leb 97 n && Nat.leb n 122)%bool
              then ascii_of_nat (n - 32) else c)
             (sample_toUpperCase s')
  end.

Fixpoint sample_digits (acc : option Z) (s : string) : option Z :=
  match s with
  | EmptyString => acc
  | String c s' =>
      let n := nat_of_ascii c in
      if (Nat.leb 48 n && Nat.leb n 57)%bool
      then sample_digits
             (Some (10 * or_else acc 0%Z + Z.of_nat (n - 48))%Z) s'
      else acc
  end.

Definition sample_parseInt (s : string) : ParsedInt :=
  match sample_digits None s with
  | Some z => Integer z
  | None => NaN
  end.

Definition sample_window (gameId playerId numItems : option string)
  : Window :=
  {| prompt := fun msg =>
       if String.eqb msg gameId_prompt then gameId
       else if String.eqb msg playerId_prompt then playerId
       else numItems;
     location_href := "http://localhost:3000" |}.

Definition sample_client : Client :=
  {| server := sample_world; events := [] |}.


(** ** Lemmas on identifiers and relations *)

Lemma filter_none {A : Type} (f : A -> bool) (l : list A) :
  (forall x, In x l -> f x = false) -> filter f l = [].
Proof.
  induction l as [| a l IH]; intros H; [reflexivity |].
  simpl. rewrite (H a (or_introl eq_refl)).
  apply IH. intros x Hx. apply H. now right.
Qed.

Lemma existsb_none {A : Type} (f : A -> bool) (l : list A) :
  (forall x, In x l -> f x = false) -> existsb f l = false.
Proof.
  induction l as [| a l IH]; intros H; [reflexivity |].
  simpl. rewrite (H a (or_introl eq_refl)).
  apply IH. intros x Hx. apply H. now right.
Qed.

Lemma str_in_In s l : str_in s l = true <-> In s l.
Proof.
  unfold str_in. rewrite existsb_exists. split.
  - intros [x [Hx Heq]]. apply String.eqb_eq in Heq. now subst.
  - intros H. exists s. split; [assumption | apply String.eqb_refl].
Qed.

Lemma pair_in_In a b l : pair_in a b l = true <-> In (a, b) l.
Proof.
  unfold pair_in. rewrite existsb_exists. split.
  - intros [[x y] [Hin Heq]]. simpl in Heq.
    apply andb_true_iff in Heq. destruct Heq as [H1 H2].
    apply String.eqb_eq in H1, H2. now subst.
  - intros H. exists (a, b). simpl.
    now rewrite !String.eqb_refl.
Qed.

Lemma tag_findMany_spec st g t :
  In t (tag_findMany_inputToGames_some st g) <-> game_tag st g t.
Proof.
  unfold tag_findMany_inputToGames_some, game_tag.
  rewrite filter_In, existsb_exists. split.
  - intros [Ht [gm [Hgm Hb]]]. split; [assumption |].
    apply andb_true_iff in Hb. destruct Hb as [Hp He].
    apply String.eqb_eq in He. apply pair_in_In in Hp.
    exists gm. subst g. auto.
  - intros [Ht [gm [Hgm [He Hp]]]]. split; [assumption |].
    exists gm. split; [assumption |].
    subst g. apply andb_true_iff. split.
    + now apply pair_in_In.
    + apply String.eqb_refl.
Qed.

Lemma gameObject_findMany_spec st g oid :
  In oid (map go_id
            (gameObject_findMany_tags_some_in st
               (map tag_id (tag_findMany_inputToGames_some st g))))
  <-> carries_game_tag st g oid.
Proof.
  unfold carries_game_tag, gameObject_findMany_tags_some_in.
  rewrite in_map_iff. split.
  - intros [o [Hid Hin]]. apply filter_In in Hin.
    destruct Hin as [Ho Hex]. apply existsb_exists in Hex.
    destruct Hex as [t [Ht Hb]]. apply andb_true_iff in Hb.
    destruct Hb as [Hp Hs]. apply pair_in_In in Hp.
    apply str_in_In, in_map_iff in Hs. destruct Hs as [t' [Heq Ht']].
    apply tag_findMany_spec in Ht'.
    exists o, t'. rewrite Heq. subst oid. auto.
  - intros [o [t [Ho [Hid [Hp Hgt]]]]]. exists o. split; [assumption |].
    apply filter_In. split; [assumption |].
    apply existsb_exists. exists t. split; [apply Hgt |].
    apply andb_true_iff. split.
    + apply pair_in_In. now rewrite Hid.
    + apply str_in_In, in_map. now apply tag_findMany_spec.
Qed.

(** ** Lemmas on the ordering *)

Lemma insert_desc_perm x l : Permutation (insert_desc x l) (x :: l).
Proof.
  induction l as [| y l IH]; simpl.
  - apply Permutation_refl.
  - destruct (Qle_bool (ps_score y) (ps_score x)).
    + apply Permutation_refl.
    + eapply perm_trans; [apply perm_skip, IH | apply perm_swap].
Qed.

Lemma storage_order_sort_perm l : Permutation (storage_order_sort l) l.
Proof.
  induction l as [| x l IH]; simpl.
  - constructor.
  - eapply perm_trans; [apply insert_desc_perm | now apply perm_skip].
Qed.

Lemma orderBy_score_desc_In {ord : StoreOrder} l ps :
  In ps (orderBy_score_desc l) <-> In ps l.
Proof.
  split; apply Permutation_in;
    [| apply Permutation_sym]; apply orderBy_score_desc_perm.
Qed.

Lemma orderBy_score_desc_nil {ord : StoreOrder} :
  orderBy_score_desc [] = [].
Proof.
  apply Permutation_nil, Permutation_sym, orderBy_score_desc_perm.
Qed.

Lemma score_desc_trans a b c :
  score_desc a b -> score_desc b c -> score_desc a c.
Proof. unfold score_desc. intros H1 H2. eapply Qle_trans; eassumption. Qed.

Lemma not_Qle_bool_score_desc x y :
  Qle_bool (ps_score y) (ps_score x) = false -> score_desc y x.
Proof.
  unfold score_desc. intros H.
  destruct (Qlt_le_dec (ps_score x) (ps_score y)) as [Hlt | Hle].
  - now apply Qlt_le_weak.
  - apply Qle_bool_iff in Hle. congruence.
Qed.

Lemma insert_desc_sorted x l :
  StronglySorted score_desc l -> StronglySorted score_desc (insert_desc x l).
Proof.
  induction 1 as [| y l Hs IH Hall]; simpl.
  - repeat constructor.
  - destruct (Qle_bool (ps_score y) (ps_score x)) eqn:E.
    + apply Qle_bool_iff in E. constructor.
      * now constructor.
      * constructor; [exact E |].
        eapply Forall_impl; [| exact Hall].
        intros z Hz. eapply score_desc_trans; [exact E | exact Hz].
    + constructor; [exact IH |].
      apply not_Qle_bool_score_desc in E.
      rewrite Forall_forall in *. intros z Hz.
      apply (Permutation_in _ (insert_desc_perm x l)) in Hz.
      destruct Hz as [-> | Hz]; auto.
Qed.

Lemma storage_order_sort_sorted l :
  StronglySorted score_desc (storage_order_sort l).
Proof.
  induction l as [| x l IH]; simpl.
  - constructor.
  - now apply insert_desc_sorted.
Qed.

Lemma insert_key_perm x l : Permutation (insert_key x l) (x :: l).
Proof.
  induction l as [| y l IH]; simpl.
  - apply Permutation_refl.
  - destruct (key_before x y).
    + apply Permutation_refl.
    + eapply perm_trans; [apply perm_skip, IH | apply perm_swap].
Qed.

Lemma key_order_sort_perm l : Permutation (key_order_sort l) l.
Proof.
  induction l as [| x l IH]; simpl.
  - constructor.
  - eapply perm_trans; [apply insert_key_perm | now apply perm_skip].
Qed.

Lemma key_before_true x y : key_before x y = true -> score_desc x y.
Proof.
  unfold key_before, score_desc. intros H.
  apply orb_true_iff in H. destruct H as [H | H].
  - apply negb_true_iff in H.
    destruct (Qlt_le_dec (ps_score y) (ps_score x)) as [Hlt | Hle].
    + now apply Qlt_le_weak.
    + apply Qle_bool_iff in Hle. congruence.
  - apply andb_true_iff in H. destruct H as [H _].
    apply Qeq_bool_iff in H. rewrite H. apply Qle_refl.
Qed.

Lemma key_before_false x y : key_before x y = false -> score_desc y x.
Proof.
  unfold key_before, score_desc. intros H.
  apply orb_false_iff in H. destruct H as [H _].
  apply negb_false_iff in H. now apply Qle_bool_iff.
Qed.

Lemma insert_key_sorted x l :
  StronglySorted score_desc l -> StronglySorted score_desc (insert_key x l).
Proof.
  induction 1 as [| y l Hs IH Hall]; simpl.
  - repeat constructor.
  - destruct (key_before x y) eqn:E.
    + apply key_before_true in E. constructor.
      * now constructor.
      * constructor; [exact E |].
        eapply Forall_impl; [| exact Hall].
        intros z Hz. eapply score_desc_trans; [exact E | exact Hz].
    + constructor; [exact IH |].
      apply key_before_false in E.
      rewrite Forall_forall in *. intros z Hz.
      apply (Permutation_in _ (insert_key_perm x l)) in Hz.
      destruct Hz as [-> | Hz]; auto.
Qed.

Lemma key_order_sort_sorted l :
  StronglySorted score_desc (key_order_sort l).
Proof.
  induction l as [| x l IH]; simpl.
  - constructor.
  - now apply insert_key_sorted.
Qed.

(** The two orderings are answers a store may give. *)
Definition storage_order : StoreOrder :=
  {| orderBy_score_desc := storage_order_sort;
     orderBy_score_desc_perm := storage_order_sort_perm;
     orderBy_score_desc_sorted := storage_order_sort_sorted |}.

Definition key_order : StoreOrder :=
  {| orderBy_score_desc := key_order_sort;
     orderBy_score_desc_perm := key_order_sort_perm;
     orderBy_score_desc_sorted := key_order_sort_sorted |}.

(** ** [getPlayerScores]: running the procedure *)

Section GetPlayerScores.
Context {js : JsRuntime} {ord : StoreOrder}.

Lemma getPlayerScores_request ctx g p inc :
  getPlayerScores ctx (request g p inc) =
  query ctx {| in_game_id := g;
               in_player_id := p;
               include_game_objects := z_include_game_objects inc |}.
Proof. reflexivity. Qed.

Lemma query_run ctx input w :
  authorized ctx (in_player_id input) = true ->
  query ctx input w =
  (Ok {| out_playerScores :=
           map shape (resolve (db w) (in_game_id input)
                        (in_player_id input)
                        (include_game_objects input)) |},
   after_reads w).
Proof.
  unfold authorized, query, after_reads. intros Hauth.
  unfold bind at 1.
  destruct (String.eqb (auth_type (authData ctx)) "player_token").
  - simpl in Hauth. rewrite Hauth. simpl.
    unfold bind, await, ret, resolve. simpl.
    now rewrite <- !app_assoc.
  - unfold bind, await, ret, resolve. simpl.
    now rewrite <- !app_assoc.
Qed.

Lemma getPlayerScores_run ctx w g p inc :
  authorized ctx p = true ->
  getPlayerScores ctx (request g p inc) w =
  (Ok {| out_playerScores :=
           map shape (resolve (db w) g p (z_include_game_objects inc)) |},
   after_reads w).
Proof.
  intros Hauth. rewrite getPlayerScores_request.
  now rewrite query_run.
Qed.

Lemma resolve_rows st g p b :
  map row (resolve st g p b) = orderBy_score_desc (qualifying st g p).
Proof.
  unfold resolve, playerScore_findMany, qualifying.
  rewrite map_map. simpl. apply map_id.
Qed.

Lemma resolve_include st g p b :
  resolve st g p b =
  map (include_gameObject st b) (orderBy_score_desc (qualifying st g p)).
Proof. reflexivity. Qed.

Lemma qualifying_In st g p ps :
  In ps (qualifying st g p) <->
  In ps (playerScores st) /\ ps_playerId ps = p /\
  carries_game_tag st g (ps_gameObjectId ps).
Proof.
  unfold qualifying. rewrite filter_In, andb_true_iff.
  rewrite str_in_In, gameObject_findMany_spec, String.eqb_eq.
  tauto.
Qed.


(** C2. A caller holding a player token for another identity than the
    requested player gets an [UNAUTHORIZED] error and the world is left
    as it was: no store operation has been issued. A caller with any other
    credential type gets a result for every player. *)
Theorem getPlayerScores_player_token ctx w g p inc :
  (auth_type (authData ctx) = "player_token" ->
   userId (authData ctx) <> p ->
   exists e,
     getPlayerScores ctx (request g p inc) w = (Err e, w) /\
     code e = UNAUTHORIZED) /\
  (auth_type (authData ctx) <> "player_token" ->
   exists out,
     getPlayerScores ctx (request g p inc) w = (Ok out, after_reads w)).
Proof.
  split.
  - intros Htype Hid.
    apply String.eqb_eq in Htype. apply String.eqb_neq in Hid.
    rewrite getPlayerScores_request. unfold query, bind at 1.
    cbn [in_player_id]. rewrite Htype, Hid. simpl.
    eexists. split; reflexivity.
  - intros Htype. apply String.eqb_neq in Htype.
    eexists. apply getPlayerScores_run.
    unfold authorized. now rewrite Htype.
Qed.

(** C3. When the requested game is absent from the store, or no tag is
    associated with it, an authorized request succeeds with an empty
    list, whatever scores the store holds for the player and whether or
    not the player is known; the three reads are issued and none fails. *)
Theorem getPlayerScores_no_tags ctx w g p inc :
  authorized ctx p = true ->
  (forall gm, In gm (games (db w)) -> game_id gm <> g) \/
  (forall t, ~ game_tag (db w) g t) ->
  tag_findMany_inputToGames_some (db w) g = [] /\
  gameObject_findMany_tags_some_in (db w) [] = [] /\
  getPlayerScores ctx (request g p inc) w =
  (Ok {| out_playerScores := [] |}, after_reads w).
Proof.
  intros Hauth Hnone.
  assert (Hno : forall t, ~ game_tag (db w) g t).
  { destruct Hnone as [Hg | Ht]; [| exact Ht].
    intros t [_ [gm [Hgm [He _]]]]. exact (Hg gm Hgm He). }
  assert (Htags : tag_findMany_inputToGames_some (db w) g = []).
  { destruct (tag_findMany_inputToGames_some (db w) g) as [| t l] eqn:E;
      [reflexivity |].
    exfalso. apply (Hno t), tag_findMany_spec. rewrite E. now left. }
  assert (Hobjs : gameObject_findMany_tags_some_in (db w) [] = []).
  { apply filter_none. intros o _. apply existsb_none. intros t _.
    apply andb_false_r. }
  split; [exact Htags |]. split; [exact Hobjs |].
  rewrite (getPlayerScores_run _ _ _ _ _ Hauth).
  unfold resolve. rewrite Htags. simpl map at 2. rewrite Hobjs.
  unfold playerScore_findMany.
  rewrite filter_none; [| intros ps _; reflexivity].
  now rewrite orderBy_score_desc_nil.
Qed.

Lemma find_go_id st oid :
  (exists o, In o (gameObjects st) /\ go_id o = oid) ->
  exists o, find (fun o => String.eqb (go_id o) oid) (gameObjects st)
            = Some o /\
            In o (gameObjects st) /\ go_id o = oid.
Proof.
  intros [o [Ho Hid]].
  destruct (find (fun o => String.eqb (go_id o) oid) (gameObjects st))
    as [o' |] eqn:E.
  - apply find_some in E. destruct E as [Hin Heq].
    apply String.eqb_eq in Heq. exists o'. auto.
  - apply (find_none _ _ E) in Ho. apply String.eqb_neq in Ho.
    contradiction.
Qed.

Lemma filter_length_perm {A : Type} (f : A -> bool) (l l' : list A) :
  Permutation l l' ->
  List.length (filter f l) = List.length (filter f l').
Proof.
  induction 1 as [| x l l' _ IH | x y l | l l' l'' _ IH1 _ IH2]; simpl.
  - reflexivity.
  - destruct (f x); simpl; congruence.
  - destruct (f x), (f y); reflexivity.
  - congruence.
Qed.

Lemma filter_map_length {A B : Type} (f : B -> bool) (h : A -> B) l :
  List.length (filter f (map h l))
  = List.length (filter (fun a => f (h a)) l).
Proof.
  induction l as [| a l IH]; [reflexivity |].
  simpl. destruct (f (h a)); simpl; congruence.
Qed.

Lemma filter_and {A : Type} (f g : A -> bool) l :
  filter f (filter g l) = filter (fun a => g a && f a) l.
Proof.
  induction l as [| a l IH]; [reflexivity |].
  simpl. destruct (g a); simpl; [destruct (f a) |]; congruence.
Qed.

Lemma shape_sorted rows :
  StronglySorted score_desc (map row rows) ->
  StronglySorted (fun a b => number_le (out_score b) (out_score a))
    (map shape rows).
Proof.
  induction rows as [| r rows IH]; simpl; intros H; [constructor |].
  inversion H as [| x l Hs Hall]; subst. constructor; [now apply IH |].
  rewrite Forall_map in *. eapply Forall_impl; [| exact Hall].
  intros r' Hr'. simpl. now apply toNumber_le.
Qed.

Lemma scores_sorted (l : list PlayerScore) :
  StronglySorted score_desc l ->
  StronglySorted (fun a b : Q => (b <= a)%Q) (map ps_score l).
Proof.
  induction 1 as [| x l Hs IH Hall]; simpl; constructor;
    [exact IH |].
  rewrite Forall_map. exact Hall.
Qed.

Lemma sorted_3_10_1 (m : list Q) :
  Permutation m [3 # 1; 10 # 1; 1 # 1] ->
  StronglySorted (fun a b : Q => (b <= a)%Q) m ->
  m = [10 # 1; 3 # 1; 1 # 1].
Proof.
  intros Hp Hs. pose proof (Permutation_length Hp) as Hlen.
  destruct m as [| x [| y [| z [| u m]]]]; try discriminate Hlen.
  assert (Hx : In x [3 # 1; 10 # 1; 1 # 1])
    by (apply (Permutation_in _ Hp); simpl; auto).
  assert (Hy : In y [3 # 1; 10 # 1; 1 # 1])
    by (apply (Permutation_in _ Hp); simpl; auto).
  assert (Hz : In z [3 # 1; 10 # 1; 1 # 1])
    by (apply (Permutation_in _ Hp); simpl; auto).
  assert (H10 : In (10 # 1) [x; y; z])
    by (apply (Permutation_in _ (Permutation_sym Hp)); simpl; auto).
  assert (H3 : In (3 # 1) [x; y; z])
    by (apply (Permutation_in _ (Permutation_sym Hp)); simpl; auto).
  assert (H1 : In (1 # 1) [x; y; z])
    by (apply (Permutation_in _ (Permutation_sym Hp)); simpl; auto).
  inversion Hs as [| x1 l1 Hs1 Hall1]; subst.
  inversion Hall1 as [| y2 l2 Hyx Hall2]; subst.
  inversion Hall2 as [| z3 l3 Hzx _]; subst.
  inversion Hs1 as [| y4 l4 _ Hall4]; subst.
  inversion Hall4 as [| z5 l5 Hzy _]; subst.
  clear Hp Hs Hs1 Hall1 Hall2 Hall4 Hlen.
  simpl in Hx, Hy, Hz.
  destruct Hx as [<- | [<- | [<- | []]]];
    destruct Hy as [<- | [<- | [<- | []]]];
    destruct Hz as [<- | [<- | [<- | []]]];
    try reflexivity; exfalso;
    solve [ unfold Qle in Hyx, Hzx, Hzy; simpl in Hyx, Hzx, Hzy; lia
          | simpl in H10, H3, H1; intuition discriminate ].
Qed.

Lemma orderBy_score_desc_3_10_1 l :
  map ps_score l = [3 # 1; 10 # 1; 1 # 1] ->
  map ps_score (orderBy_score_desc l) = [10 # 1; 3 # 1; 1 # 1].
Proof.
  intros H. apply sorted_3_10_1.
  - rewrite <- H. apply Permutation_map, orderBy_score_desc_perm.
  - apply scores_sorted, orderBy_score_desc_sorted.
Qed.

(** C4, as amended. For an authorized caller the records of the result are
    sorted by decreasing [score]; they are the shaping of the qualifying
    rows of the store, rearranged by decreasing decimal score; and when the
    qualifying scores are 3, 10 and 1, the result lists the scores 10, 3, 1
    in this order. This holds for every order the store gives to rows of
    equal score. *)
Theorem getPlayerScores_sorted_desc ctx w g p inc :
  authorized ctx p = true ->
  exists rows,
    fst (getPlayerScores ctx (request g p inc) w)
    = Ok {| out_playerScores := map shape rows |} /\
    StronglySorted (fun a b => number_le (out_score b) (out_score a))
      (map shape rows) /\
    StronglySorted score_desc (map row rows) /\
    Permutation (map row rows) (qualifying (db w) g p) /\
    (map ps_score (qualifying (db w) g p) = [3 # 1; 10 # 1; 1 # 1] ->
     map out_score (map shape rows)
     = [toNumber (10 # 1); toNumber (3 # 1); toNumber (1 # 1)]).
Proof.
  intros Hauth. rewrite (getPlayerScores_run _ _ _ _ _ Hauth).
  exists (resolve (db w) g p (z_include_game_objects inc)).
  split; [reflexivity |].
  split; [apply shape_sorted; rewrite resolve_rows;
          apply orderBy_score_desc_sorted |].
  rewrite resolve_rows.
  split; [apply orderBy_score_desc_sorted |].
  split; [apply orderBy_score_desc_perm |].
  intros Hscores. apply orderBy_score_desc_3_10_1 in Hscores.
  rewrite <- (resolve_rows _ _ _ (z_include_game_objects inc)) in Hscores.
  rewrite !map_map in *. unfold shape. simpl.
  change [toNumber (10 # 1); toNumber (3 # 1); toNumber (1 # 1)]
    with (map toNumber [10 # 1; 3 # 1; 1 # 1]).
  rewrite <- Hscores. now rewrite map_map.
Qed.

(** C5. Every record of an authorized result comes from a score row of
    the store: its [score] is the row's decimal converted by [toNumber],
    its [createdAt] and [updatedAt] are the row's dates printed by
    [toISOString]. Its [gameObject] is absent when [include_game_objects]
    is false; when it is true, it is the game object the row refers to,
    with its id, name and description and its two dates printed by
    [toISOString], and nothing else. *)
Theorem getPlayerScores_output_shape ctx w g p inc :
  authorized ctx p = true ->
  exists out,
    fst (getPlayerScores ctx (request g p inc) w) = Ok out /\
    forall r,
      In r (out_playerScores out) ->
      exists ps,
        In ps (playerScores (db w)) /\
        out_score r = toNumber (ps_score ps) /\
        out_createdAt r = toISOString (ps_createdAt ps) /\
        out_updatedAt r = toISOString (ps_updatedAt ps) /\
        out_playerId r = ps_playerId ps /\
        out_gameObjectId r = ps_gameObjectId ps /\
        if z_include_game_objects inc
        then exists o,
               In o (gameObjects (db w)) /\
               go_id o = ps_gameObjectId ps /\
               out_gameObject r =
               Some {| out_go_id := go_id o;
                       out_go_createdAt := toISOString (go_createdAt o);
                       out_go_updatedAt := toISOString (go_updatedAt o);
                       out_go_name := go_name o;
                       out_go_description := go_description o |}
        else out_gameObject r = None.
Proof.
  intros Hauth. rewrite (getPlayerScores_run _ _ _ _ _ Hauth).
  eexists. split; [reflexivity |]. simpl. intros r Hr.
  rewrite resolve_include, map_map in Hr. apply in_map_iff in Hr.
  destruct Hr as [ps [Hr Hin]].
  apply orderBy_score_desc_In, qualifying_In in Hin.
  destruct Hin as [Hin [Hp Hc]].
  exists ps. subst r. simpl. repeat (split; [auto; fail |]).
  destruct (z_include_game_objects inc); [| reflexivity].
  destruct Hc as [o [t [Ho [Hid _]]]].
  destruct (find_go_id (db w) (ps_gameObjectId ps)) as [o' [E [Ho' Hid']]].
  { exists o. auto. }
  exists o'. rewrite E. auto.
Qed.

(** C6. For an authorized caller and a game object that carries at least
    one tag of the requested game, however many of its tags the game
    shares, the result holds as many records for this game object as the
    store holds score rows of the player for it: a single score row
    appears exactly once. *)
Theorem getPlayerScores_no_duplicates ctx w g p inc oid :
  authorized ctx p = true ->
  carries_game_tag (db w) g oid ->
  exists out,
    fst (getPlayerScores ctx (request g p inc) w) = Ok out /\
    List.length
      (filter (fun r => String.eqb (out_gameObjectId r) oid)
              (out_playerScores out))
    = List.length
        (filter (fun ps => String.eqb (ps_playerId ps) p
                           && String.eqb (ps_gameObjectId ps) oid)
                (playerScores (db w))).
Proof.
  intros Hauth Hc. rewrite (getPlayerScores_run _ _ _ _ _ Hauth).
  eexists. split; [reflexivity |]. simpl.
  rewrite resolve_include, map_map, filter_map_length. simpl.
  rewrite (filter_length_perm _ _ _ (orderBy_score_desc_perm _)).
  unfold qualifying. rewrite filter_and. f_equal.
  apply filter_ext. intros ps.
  destruct (String.eqb (ps_gameObjectId ps) oid) eqn:E.
  - apply String.eqb_eq in E. rewrite E.
    apply gameObject_findMany_spec, str_in_In in Hc. rewrite Hc.
    simpl. now rewrite andb_true_r.
  - now rewrite !andb_false_r.
Qed.

(** C7, as amended. A request whose [game_id] or [player_id] is missing
    or is anything but a string fails with [BAD_REQUEST] before the
    authorization check and before any store operation; with two strings,
    the empty one included, validation succeeds and the request goes on to
    the resolver with these ids. *)
Theorem getPlayerScores_validation ctx w raw :
  ((forall s, raw_game_id raw <> JString s) \/
   (forall s, raw_player_id raw <> JString s) ->
   exists e,
     getPlayerScores ctx raw w = (Err e, w) /\ code e = BAD_REQUEST) /\
  (forall g p,
     raw_game_id raw = JString g -> raw_player_id raw = JString p ->
     parse_input raw
     = Ok {| in_game_id := g;
             in_player_id := p;
             include_game_objects :=
               z_include_game_objects (raw_include_game_objects raw) |} /\
     getPlayerScores ctx raw w
     = query ctx
         {| in_game_id := g;
            in_player_id := p;
            include_game_objects :=
              z_include_game_objects (raw_include_game_objects raw) |} w).
Proof.
  split.
  - intros H. unfold getPlayerScores, parse_input.
    destruct (raw_game_id raw) as [| | b | q | g] eqn:Eg;
      destruct (raw_player_id raw) as [| | b' | q' | p] eqn:Ep;
      simpl; try (eexists; split; reflexivity).
    destruct H as [H | H]; [now elim (H g) | now elim (H p)].
  - intros g p Hg Hp. unfold getPlayerScores, parse_input.
    rewrite Hg, Hp. split; reflexivity.
Qed.

End GetPlayerScores.

(** ** [GameObjectsTable]: the free-text filter *)

Lemma prefix_app (needle hay : string) :
  String.prefix needle hay = true <->
  exists post : string, hay = (needle ++ post)%string.
Proof.
  revert hay. induction needle as [| a needle IH]; intros hay.
  - split; [| now destruct hay]. intros _. now exists hay.
  - destruct hay as [| b hay].
    + split; [discriminate | intros [post H]; discriminate].
    + simpl. destruct (ascii_dec a b) as [-> | Hne].
      * rewrite IH. split; intros [post H]; exists post.
        -- now rewrite H.
        -- now injection H.
      * split; [discriminate |]. intros [post H].
        injection H as Hab _. congruence.
Qed.

Lemma includes_substring_of (needle hay : string) :
  includes needle hay = true <-> substring_of needle hay.
Proof.
  unfold substring_of. induction hay as [| c hay IH].
  - change (includes needle EmptyString)
      with (String.prefix needle EmptyString || false).
    rewrite orb_false_r, prefix_app. split.
    + intros [post H]. now exists EmptyString, post.
    + intros [pre [post H]]. destruct pre; [| discriminate].
      now exists post.
  - change (includes needle (String c hay))
      with (String.prefix needle (String c hay) || includes needle hay).
    rewrite orb_true_iff, prefix_app, IH. split.
    + intros [[post H] | [pre [post H]]].
      * now exists EmptyString, post.
      * exists (String c pre), post. simpl. now rewrite H.
    + intros [pre [post H]]. destruct pre as [| c' pre].
      * left. now exists post.
      * right. injection H as _ H. now exists pre, post.
Qed.

Lemma truthy_nonempty s : s <> EmptyString -> truthy s = true.
Proof. destruct s; [congruence | reflexivity]. Qed.

(** C8, as amended. When the free-text filter is not empty, the listing and
    the count select exactly the game objects of the store whose id or whose
    name contains the filter string, and that carry the tag of the tag
    filter when there is one; the description is not searched. *)
Theorem table_filter_id_or_name st s tag o :
  s <> EmptyString ->
  (In o (getAll_where st (table_filter s tag)) <->
   In o (gameObjects st) /\
   (substring_of s (go_id o) \/ substring_of s (go_name o)) /\
   match tag with
   | Some t => In (go_id o, t) (gameObjectTags st)
   | None => True
   end) /\
  getCount st (table_filter s tag)
  = Z.of_nat (List.length (getAll_where st (table_filter s tag))).
Proof.
  intros Hs. split; [| reflexivity].
  unfold getAll_where, matches, table_filter, text_tests.
  rewrite (truthy_nonempty s Hs). simpl.
  rewrite filter_In, andb_true_iff, orb_false_r, orb_true_iff.
  rewrite !includes_substring_of.
  destruct tag as [t |]; [rewrite pair_in_In |]; tauto.
Qed.

(** ** [GameObjectsTable]: page count and page index *)

Lemma ceil_div_bounds (count size : Z) :
  (0 < size)%Z ->
  ((ceil_div count size - 1) * size < count <= ceil_div count size * size)%Z.
Proof.
  intros Hsize. unfold ceil_div.
  pose proof (Z.mul_div_le (- count) size Hsize) as Hlo.
  pose proof (Z.mul_succ_div_gt (- count) size Hsize) as Hhi.
  nia.
Qed.

(** C10. The page count is the ceiling of the count over the page size; the
    effect sets the page index to [pageCount - 1] whenever the index is not
    below the page count; and with a count of 0 the page count is 0, the
    effect moves a non-negative index to -1, and run again at -1 it returns
    at the [pageCount === 0] guard without an update, so the index stays
    at -1. *)
Theorem pageCount_adjustPageIndex (p : PaginationState) :
  (0 < pageSize p)%Z ->
  (forall count,
     ((pageCount (Some count) p - 1) * pageSize p < count
      <= pageCount (Some count) p * pageSize p)%Z) /\
  (forall pc,
     (pageIndex p >= pc)%Z ->
     adjustPageIndex pc p
     = Some {| pageIndex := (pc - 1)%Z; pageSize := pageSize p |}) /\
  pageCount (Some 0%Z) p = 0%Z /\
  ((0 <= pageIndex p)%Z ->
   let at_minus_one := {| pageIndex := (-1)%Z; pageSize := pageSize p |} in
   adjustPageIndex (pageCount (Some 0%Z) p) p = Some at_minus_one /\
   adjustPageIndex (pageCount (Some 0%Z) p) at_minus_one = None /\
   forall fuel,
     rerun (S fuel) (pageCount (Some 0%Z) p) p = at_minus_one).
Proof.
  intros Hsize.
  assert (Hzero : pageCount (Some 0%Z) p = 0%Z).
  { reflexivity. }
  assert (Hset : forall pc, (pageIndex p >= pc)%Z ->
            adjustPageIndex pc p
            = Some {| pageIndex := (pc - 1)%Z; pageSize := pageSize p |}).
  { intros pc Hge. unfold adjustPageIndex.
    destruct (Z.geb_spec (pageIndex p) pc); [reflexivity | lia]. }
  split; [intros count; now apply ceil_div_bounds |].
  split; [exact Hset |]. split; [exact Hzero |].
  intros Hidx. rewrite Hzero. cbv zeta.
  assert (Hfirst : adjustPageIndex 0 p
            = Some {| pageIndex := (-1)%Z; pageSize := pageSize p |}).
  { rewrite Hset by lia. reflexivity. }
  split; [exact Hfirst |]. split; [reflexivity |].
  intros fuel. simpl. rewrite Hfirst. now destruct fuel.
Qed.

(** ** [updateById] *)

Lemma connect_pairs_keeps id ts rel x :
  In x rel -> In x (connect_pairs id ts rel).
Proof.
  revert rel. induction ts as [| t ts IH]; intros rel Hx; [exact Hx |].
  simpl. apply IH. destruct (pair_in id t rel); [exact Hx |].
  apply in_or_app. now left.
Qed.

Lemma connect_pairs_connects id ts rel t :
  In t ts -> In (id, t) (connect_pairs id ts rel).
Proof.
  revert rel. induction ts as [| t' ts IH]; intros rel Ht; [easy |].
  simpl. destruct Ht as [-> | Ht]; [| now apply IH].
  apply connect_pairs_keeps.
  destruct (pair_in id t rel) eqn:E.
  - now apply pair_in_In.
  - apply in_or_app. right. now left.
Qed.

Lemma rename_fst_In old new t rel :
  In (old, t) rel -> In (new, t) (map (rename_fst old new) rel).
Proof.
  intros H. apply in_map_iff. exists (old, t). split; [| exact H].
  unfold rename_fst. simpl. now rewrite String.eqb_refl.
Qed.

(** C9. When [updateById] succeeds on the game object [o], every tag that
    was related to [o] is still related to the updated object, every tag of
    the supplied list is related to it, and each of id, name and
    description that the data omits has the value it had in [o]. *)
Theorem updateById_connect_only now input w out w' :
  updateById now input w = (Ok out, w') ->
  exists o,
    find (fun x => String.eqb (go_id x) (input_id input))
         (gameObjects (db w)) = Some o /\
    (forall t,
       In (go_id o, t) (gameObjectTags (db w)) ->
       In (go_id (updatedGameObject out), t) (gameObjectTags (db w'))) /\
    (forall ts t,
       data_tags (input_data input) = Some ts -> In t ts ->
       In (go_id (updatedGameObject out), t) (gameObjectTags (db w'))) /\
    (data_id (input_data input) = None ->
     go_id (updatedGameObject out) = go_id o) /\
    (data_name (input_data input) = None ->
     go_name (updatedGameObject out) = go_name o) /\
    (data_description (input_data input) = None ->
     go_description (updatedGameObject out) = go_description o).
Proof.
  unfold updateById, gameObject_update. cbn [set_id set_name
    set_description tags_connect].
  destruct (find _ (gameObjects (db w))) as [o |] eqn:Efind;
    [| discriminate].
  destruct (negb (forallb _ _)); [discriminate |].
  destruct (negb _ && _); [discriminate |].
  intros H. injection H as <- <-. exists o. cbn.
  apply find_some in Efind. destruct Efind as [_ Hid].
  apply String.eqb_eq in Hid.
  split; [reflexivity |]. split; [| split; [| split; [| split]]].
  - intros t Ht. apply connect_pairs_keeps, rename_fst_In.
    now rewrite <- Hid.
  - intros ts t Hts Ht. rewrite Hts. now apply connect_pairs_connects.
  - now intros ->.
  - now intros ->.
  - now intros ->.
Qed.

(** ** The statements at the sample data *)

Example example_store_scores :
  fst (getPlayerScores (js := sample_runtime) (ord := storage_order) api_key_ctx
         (request "g1" "p1" JUndefined)
         {| db := example_store; calls := [] |})
  = Ok {| out_playerScores :=
            [ {| out_createdAt := "1970-01-01T00:00:00.000Z";
                 out_updatedAt := "1970-01-01T00:00:00.000Z";
                 out_score := (5 # 1) : @number sample_runtime;
                 out_playerId := "p1";
                 out_gameObjectId := "go1";
                 out_gameObject := None |} ] |}.
Proof. reflexivity. Qed.

Example sample_store_scores_g1 :
  match fst (getPlayerScores (js := sample_runtime) (ord := storage_order) (player_ctx "p1")
               (request "g1" "p1" (JString "true")) sample_world) with
  | Ok out =>
      map (fun r => (out_gameObjectId r, out_score r,
                     option_map out_go_name (out_gameObject r)))
          (out_playerScores out)
  | Err _ => []
  end
  = [ ("go3", 10 # 1, Some "name of go3");
      ("go1", 3 # 1, Some "name of go1");
      ("go4", 1 # 1, Some "name of go4") ].
Proof. reflexivity. Qed.

Example sample_store_scores_g2 :
  match fst (getPlayerScores (js := sample_runtime) (ord := storage_order) api_key_ctx
               (request "g2" "p1" (JBool true)) sample_world) with
  | Ok out =>
      map (fun r => (out_gameObjectId r, out_score r,
                     option_map out_go_name (out_gameObject r)))
          (out_playerScores out)
  | Err _ => []
  end
  = [ ("go3", 10 # 1, None); ("go2", 9 # 1, None);
      ("go1", 3 # 1, None); ("go4", 1 # 1, None) ].
Proof. reflexivity. Qed.


Lemma getPlayerScores_player_token_witness :
  (exists e,
     getPlayerScores (js := sample_runtime) (ord := storage_order) (player_ctx "p2")
       (request "g1" "p1" JUndefined) sample_world
     = (Err e, sample_world) /\
     code e = UNAUTHORIZED) /\
  (exists out,
     getPlayerScores (js := sample_runtime) (ord := storage_order) api_key_ctx
       (request "g1" "p1" JUndefined) sample_world
     = (Ok out, after_reads sample_world)).
Proof.
  split.
  - apply (proj1 (getPlayerScores_player_token (js := sample_runtime) (ord := storage_order)
                    (player_ctx "p2") sample_world "g1" "p1" JUndefined)).
    + reflexivity.
    + discriminate.
  - apply (proj2 (getPlayerScores_player_token (js := sample_runtime) (ord := storage_order)
                    api_key_ctx sample_world "g1" "p1" JUndefined)).
    discriminate.
Defined.

Lemma getPlayerScores_no_tags_witness :
  authorized api_key_ctx "p1" = true /\
  (forall gm, In gm (games sample_store) -> game_id gm <> "g9") /\
  getPlayerScores (js := sample_runtime) (ord := storage_order) api_key_ctx
    (request "g9" "p1" JUndefined) sample_world
  = (Ok {| out_playerScores := [] |}, after_reads sample_world).
Proof.
  assert (Hgames : forall gm, In gm (games sample_store) ->
                              game_id gm <> "g9").
  { intros gm [<- | [<- | []]]; discriminate. }
  split; [reflexivity |]. split; [exact Hgames |].
  apply (getPlayerScores_no_tags (js := sample_runtime) (ord := storage_order)
           api_key_ctx sample_world "g9" "p1" JUndefined).
  - reflexivity.
  - left. exact Hgames.
Defined.

Lemma getPlayerScores_sorted_desc_witness :
  authorized api_key_ctx "p1" = true /\
  map ps_score (qualifying sample_store "g1" "p1")
  = [3 # 1; 10 # 1; 1 # 1] /\
  exists rows,
    fst (getPlayerScores (js := sample_runtime) (ord := storage_order) api_key_ctx
           (request "g1" "p1" JUndefined) sample_world)
    = Ok {| out_playerScores := map shape rows |} /\
    map out_score (map shape rows)
    = map (@toNumber sample_runtime) [10 # 1; 3 # 1; 1 # 1].
Proof.
  split; [reflexivity |]. split; [reflexivity |].
  destruct (getPlayerScores_sorted_desc (js := sample_runtime) (ord := storage_order)
              api_key_ctx sample_world "g1" "p1" JUndefined eq_refl)
    as [rows [Hout [_ [_ [_ Hscores]]]]].
  exists rows. split; [exact Hout |]. exact (Hscores eq_refl).
Defined.

(** C4 as stated fails on its last part: a store that returns rows of equal
    score in the order of their key gives the row on [go1] before the row
    on [go3], which is stored first. *)
Lemma getPlayerScores_ties_not_in_storage_order :
  map ps_gameObjectId (qualifying tie_store "g1" "p1") = ["go3"; "go1"] /\
  map ps_score (qualifying tie_store "g1" "p1") = [7 # 1; 7 # 1] /\
  exists out,
    fst (getPlayerScores (js := sample_runtime) (ord := key_order)
           api_key_ctx (request "g1" "p1" JUndefined)
           {| db := tie_store; calls := [] |}) = Ok out /\
    map out_gameObjectId (out_playerScores out) = ["go1"; "go3"].
Proof.
  split; [reflexivity |]. split; [reflexivity |].
  eexists. split; reflexivity.
Qed.


Lemma getPlayerScores_output_shape_witness :
  authorized api_key_ctx "p1" = true /\
  exists out,
    fst (getPlayerScores (js := sample_runtime) (ord := storage_order) api_key_ctx
           (request "g1" "p1" (JString "true")) sample_world) = Ok out /\
    forall r,
      In r (out_playerScores out) ->
      exists o, In o (gameObjects sample_store) /\
                option_map out_go_id (out_gameObject r) = Some (go_id o).
Proof.
  split; [reflexivity |].
  destruct (getPlayerScores_output_shape (js := sample_runtime) (ord := storage_order)
              api_key_ctx sample_world "g1" "p1" (JString "true") eq_refl)
    as [out [Hout Hshape]].
  exists out. split; [exact Hout |]. intros r Hr.
  destruct (Hshape r Hr) as [ps [_ [_ [_ [_ [_ [_ [o [Ho [_ Hgo]]]]]]]]]].
  exists o. split; [exact Ho |]. rewrite Hgo. reflexivity.
Defined.

Lemma sample_go1_carries_both_tags :
  carries_game_tag sample_store "g2" "go1".
Proof.
  exists (sample_gameObject "go1"), {| tag_id := "t2"; tag_name := "B" |}.
  split; [simpl; auto |]. split; [reflexivity |].
  split; [simpl; auto |]. split; [simpl; auto |].
  exists {| game_id := "g2" |}. simpl. auto 6.
Defined.

Lemma getPlayerScores_no_duplicates_witness :
  authorized api_key_ctx "p1" = true /\
  carries_game_tag sample_store "g2" "go1" /\
  exists out,
    fst (getPlayerScores (js := sample_runtime) (ord := storage_order) api_key_ctx
           (request "g2" "p1" JUndefined) sample_world) = Ok out /\
    List.length
      (filter (fun r => String.eqb (out_gameObjectId r) "go1")
              (out_playerScores out))
    = 1%nat.
Proof.
  split; [reflexivity |]. split; [exact sample_go1_carries_both_tags |].
  apply (getPlayerScores_no_duplicates (js := sample_runtime) (ord := storage_order)
           api_key_ctx sample_world "g2" "p1" JUndefined "go1").
  - reflexivity.
  - exact sample_go1_carries_both_tags.
Defined.

(** C7 as stated fails: a request with blank ids passes validation and is
    answered with an empty list. *)
Lemma getPlayerScores_blank_ids_accepted :
  getPlayerScores (js := sample_runtime) (ord := storage_order) api_key_ctx
    (request "" "" JUndefined) sample_world
  = (Ok {| out_playerScores := [] |}, after_reads sample_world) /\
  ~ (exists e,
       fst (getPlayerScores (js := sample_runtime) (ord := storage_order) api_key_ctx
              (request "" "" JUndefined) sample_world) = Err e).
Proof.
  split; [reflexivity |]. intros [e H]. discriminate H.
Qed.

Lemma getPlayerScores_validation_witness :
  (forall s, JNull <> JString s) /\
  (exists e,
     getPlayerScores (js := sample_runtime) (ord := storage_order)
       (player_ctx "p2")
       {| raw_game_id := JNull;
          raw_player_id := JString "p1";
          raw_include_game_objects := JUndefined |} sample_world
     = (Err e, sample_world) /\
     code e = BAD_REQUEST) /\
  parse_input (request "" "p1" JNull)
  = Ok {| in_game_id := "";
          in_player_id := "p1";
          include_game_objects := false |}.
Proof.
  assert (Hnull : forall s, JNull <> JString s) by discriminate.
  split; [exact Hnull |]. split.
  - apply (proj1 (getPlayerScores_validation (js := sample_runtime)
                    (ord := storage_order)
                    (player_ctx "p2") sample_world
                    {| raw_game_id := JNull;
                       raw_player_id := JString "p1";
                       raw_include_game_objects := JUndefined |})).
    left. exact Hnull.
  - apply (proj2 (getPlayerScores_validation (js := sample_runtime)
                    (ord := storage_order)
                    api_key_ctx sample_world (request "" "p1" JNull))
             "" "p1"); reflexivity.
Defined.

(** C8 as stated fails: the filter string occurs in the description of the
    game object, and the listing does not select it. *)
Lemma table_filter_skips_description :
  In chess (gameObjects chess_store) /\
  go_description chess = Some "a board game" /\
  substring_of "board" "a board game" /\
  ~ In chess (getAll_where chess_store (table_filter "board" None)) /\
  getCount chess_store (table_filter "board" None) = 0%Z.
Proof.
  split; [now left |]. split; [reflexivity |].
  split; [now exists "a ", " game" |].
  split; [| reflexivity].
  intros H. exact H.
Qed.

Lemma table_filter_id_or_name_witness :
  "go" <> EmptyString /\
  (In (sample_gameObject "go1")
      (getAll_where sample_store (table_filter "go" (Some "t2"))) <->
   In (sample_gameObject "go1") (gameObjects sample_store) /\
   (substring_of "go" "go1" \/ substring_of "go" "name of go1") /\
   In ("go1", "t2") (gameObjectTags sample_store)).
Proof.
  split; [discriminate |].
  apply (table_filter_id_or_name sample_store "go" (Some "t2")
           (sample_gameObject "go1")).
  discriminate.
Defined.

Lemma pageCount_adjustPageIndex_witness :
  (0 < 10)%Z /\
  pageCount (Some 25%Z) {| pageIndex := 0%Z; pageSize := 10%Z |} = 3%Z /\
  adjustPageIndex 3 {| pageIndex := 7%Z; pageSize := 10%Z |}
  = Some {| pageIndex := 2%Z; pageSize := 10%Z |} /\
  rerun 5 (pageCount (Some 0%Z) {| pageIndex := 0%Z; pageSize := 10%Z |})
    {| pageIndex := 0%Z; pageSize := 10%Z |}
  = {| pageIndex := (-1)%Z; pageSize := 10%Z |}.
Proof.
  split; [reflexivity |]. split; [reflexivity |].
  destruct (pageCount_adjustPageIndex
              {| pageIndex := 0%Z; pageSize := 10%Z |} eq_refl)
    as [_ [_ [_ Hzero]]].
  destruct (pageCount_adjustPageIndex
              {| pageIndex := 7%Z; pageSize := 10%Z |} eq_refl)
    as [_ [Hset _]].
  split.
  - apply (Hset 3%Z). discriminate.
  - destruct Hzero as [_ [_ Hrerun]]; [discriminate |].
    exact (Hrerun 4%nat).
Defined.

Lemma updateById_connect_only_witness :
  exists out w',
    updateById 5%Z sample_update sample_world = (Ok out, w') /\
    In (go_id (updatedGameObject out), "t2") (gameObjectTags (db w')) /\
    In (go_id (updatedGameObject out), "t1") (gameObjectTags (db w')) /\
    go_id (updatedGameObject out) = "go2" /\
    go_description (updatedGameObject out) = None.
Proof.
  destruct (updateById 5%Z sample_update sample_world) as [[out | e] w']
    eqn:E; [| discriminate E].
  exists out, w'. split; [reflexivity |].
  destruct (updateById_connect_only 5%Z sample_update sample_world out w' E)
    as [o [Hfind [Hkeep [Hconn [Hid [_ Hdesc]]]]]].
  injection Hfind as <-.
  split; [apply Hkeep; simpl; auto |].
  split; [apply (Hconn ["t1"] "t1" eq_refl); now left |].
  split; [exact (Hid eq_refl) | exact (Hdesc eq_refl)].
Defined.

(** ** Further properties of [getPlayerScores] *)

Section GetPlayerScoresMore.
Context {js : JsRuntime} {ord : StoreOrder}.

Lemma unauthorized_run ctx input w :
  authorized ctx (in_player_id input) = false ->
  exists e, query ctx input w = (Err e, w) /\ code e = UNAUTHORIZED.
Proof.
  unfold authorized, query. intros H.
  apply orb_false_iff in H. destruct H as [Htype Hid].
  apply negb_false_iff in Htype.
  unfold bind at 1. rewrite Htype, Hid. simpl.
  eexists. split; reflexivity.
Qed.

(** X1. Whatever the caller and the request, [getPlayerScores] either fails
    with [BAD_REQUEST] or [UNAUTHORIZED] and leaves the world as it was, no
    store operation issued, or succeeds after exactly the three reads, in
    the order tags, game objects, scores; the store itself is never
    changed. *)
Theorem getPlayerScores_outcome ctx raw w :
  ((exists e,
      getPlayerScores ctx raw w = (Err e, w) /\
      (code e = BAD_REQUEST \/ code e = UNAUTHORIZED)) \/
   (exists out, getPlayerScores ctx raw w = (Ok out, after_reads w))) /\
  db (snd (getPlayerScores ctx raw w)) = db w.
Proof.
  unfold getPlayerScores.
  destruct (parse_input raw) as [input | e] eqn:Eparse.
  - destruct (authorized ctx (in_player_id input)) eqn:Eauth.
    + rewrite (query_run _ _ _ Eauth). split; [| reflexivity].
      right. eexists. reflexivity.
    + destruct (unauthorized_run _ _ w Eauth) as [e [He Hcode]].
      rewrite He. split; [| reflexivity].
      left. exists e. auto.
  - split; [| reflexivity]. left. exists e. split; [reflexivity |].
    left. unfold parse_input in Eparse.
    destruct (z_string (raw_game_id raw)), (z_string (raw_player_id raw));
      try discriminate; injection Eparse as <-; reflexivity.
Qed.

Lemma z_include_game_objects_true v :
  z_include_game_objects v = true <-> v = JString "true".
Proof.
  destruct v as [| | b | q | s]; simpl;
    try (split; [discriminate | discriminate]).
  rewrite String.eqb_eq. split; [now intros -> | now intros [= ->]].
Qed.

(** X2. Game objects are embedded only for the exact string "true": for an
    authorized caller, every record of the result carries its game object
    when [include_game_objects] arrives as the string "true", and no record
    carries one for any other value, the boolean [true] included. *)
Theorem getPlayerScores_include_only_true_string ctx w g p inc :
  authorized ctx p = true ->
  exists out,
    fst (getPlayerScores ctx (request g p inc) w) = Ok out /\
    (inc = JString "true" ->
     forall r, In r (out_playerScores out) -> out_gameObject r <> None) /\
    (inc <> JString "true" ->
     forall r, In r (out_playerScores out) -> out_gameObject r = None).
Proof.
  intros Hauth. rewrite (getPlayerScores_run _ _ _ _ _ Hauth).
  eexists. split; [reflexivity |]. simpl.
  rewrite resolve_include, map_map. split.
  - intros -> r Hr. apply in_map_iff in Hr. destruct Hr as [ps [<- Hin]].
    apply orderBy_score_desc_In, qualifying_In in Hin.
    destruct Hin as [_ [_ [o [t [Ho [Hid _]]]]]].
    destruct (find_go_id (db w) (ps_gameObjectId ps)) as [o' [E _]].
    { exists o. auto. }
    unfold shape, include_gameObject. simpl. rewrite E. discriminate.
  - intros Hinc r Hr. apply in_map_iff in Hr. destruct Hr as [ps [<- _]].
    destruct (z_include_game_objects inc) eqn:E; [| reflexivity].
    apply z_include_game_objects_true in E. contradiction.
Qed.

(** X3. Authorization never changes the answer: two callers that both pass
    the check, a player with its own token and a caller with another kind
    of credential for instance, get the same result and leave the same
    world. *)
Theorem getPlayerScores_same_for_authorized ctx1 ctx2 w g p inc :
  authorized ctx1 p = true ->
  authorized ctx2 p = true ->
  getPlayerScores ctx1 (request g p inc) w
  = getPlayerScores ctx2 (request g p inc) w.
Proof.
  intros H1 H2.
  now rewrite (getPlayerScores_run _ _ _ _ _ H1),
              (getPlayerScores_run _ _ _ _ _ H2).
Qed.



End GetPlayerScoresMore.

(** ** Further properties of [updateById] *)

Lemma updateById_success now input w out w' :
  updateById now input w = (Ok out, w') ->
  gameObject_update now (input_id input)
    {| set_id := data_id (input_data input);
       set_name := data_name (input_data input);
       set_description := data_description (input_data input);
       tags_connect := data_tags (input_data input) |} (db w)
  = Some (updatedGameObject out, db w') /\
  calls w' = calls w ++ [GameObjectUpdate].
Proof.
  unfold updateById.
  destruct (gameObject_update _ _ _ _) as [[o' st'] |]; [| discriminate].
  intros H. injection H as <- <-. split; reflexivity.
Qed.

Lemma gameObject_update_success now id data st o' st' :
  gameObject_update now id data st = Some (o', st') ->
  exists o,
    find (fun x => String.eqb (go_id x) id) (gameObjects st) = Some o /\
    In o (gameObjects st) /\ go_id o = id /\
    forallb (has_tag st) (or_else (tags_connect data) []) = true /\
    (go_id o' = id \/ has_gameObject st (go_id o') = false) /\
    o' = {| go_id := or_else (set_id data) id;
            go_createdAt := go_createdAt o;
            go_updatedAt :=
              if writes_column data then now else go_updatedAt o;
            go_name := or_else (set_name data) (go_name o);
            go_description :=
              match set_description data with
              | Some d => Some d
              | None => go_description o
              end |} /\
    st' = {| tags := tags st;
             games := games st;
             gameObjects :=
               map (fun x => if String.eqb (go_id x) id then o' else x)
                   (gameObjects st);
             playerScores :=
               map (fun ps =>
                      if String.eqb (ps_gameObjectId ps) id
                      then {| ps_createdAt := ps_createdAt ps;
                              ps_updatedAt := ps_updatedAt ps;
                              ps_score := ps_score ps;
                              ps_playerId := ps_playerId ps;
                              ps_gameObjectId := go_id o' |}
                      else ps)
                   (playerScores st);
             gameObjectTags :=
               connect_pairs (go_id o') (or_else (tags_connect data) [])
                 (map (rename_fst id (go_id o')) (gameObjectTags st));
             inputToGames := inputToGames st |}.
Proof.
  unfold gameObject_update.
  destruct (find _ (gameObjects st)) as [o |] eqn:Efind; [| discriminate].
  destruct (forallb _ _) eqn:Etags; [| discriminate]. simpl negb.
  cbv iota.
  destruct (negb _ && _) eqn:Eguard; [discriminate |].
  intros H. injection H as <- <-. exists o.
  pose proof (find_some _ _ Efind) as [Hin Hid].
  apply String.eqb_eq in Hid. rewrite Hid in Eguard |- *. simpl.
  repeat (split; [auto; fail |]).
  split; [| split; reflexivity].
  apply andb_false_iff in Eguard. destruct Eguard as [E | E].
  - left. apply negb_false_iff, String.eqb_eq in E. exact E.
  - right. exact E.
Qed.

Lemma rename_fst_same id rel : map (rename_fst id id) rel = rel.
Proof.
  rewrite <- (map_id rel) at 2. apply map_ext. intros [a b].
  unfold rename_fst. simpl.
  destruct (String.eqb a id) eqn:E; [| reflexivity].
  apply String.eqb_eq in E. now subst.
Qed.

Lemma connect_pairs_present id ts rel :
  (forall t, In t ts -> In (id, t) rel) -> connect_pairs id ts rel = rel.
Proof.
  revert rel. induction ts as [| t ts IH]; intros rel H; [reflexivity |].
  simpl. assert (E : pair_in id t rel = true).
  { apply pair_in_In, H. now left. }
  rewrite E. apply IH. intros t' Ht'. apply H. now right.
Qed.

Lemma playerScores_same_id id (rows : list PlayerScore) :
  map (fun ps =>
         if String.eqb (ps_gameObjectId ps) id
         then {| ps_createdAt := ps_createdAt ps;
                 ps_updatedAt := ps_updatedAt ps;
                 ps_score := ps_score ps;
                 ps_playerId := ps_playerId ps;
                 ps_gameObjectId := id |}
         else ps)
      rows
  = rows.
Proof.
  rewrite <- (map_id rows) at 2. apply map_ext. intros ps.
  destruct (String.eqb (ps_gameObjectId ps) id) eqn:E; [| reflexivity].
  apply String.eqb_eq in E. destruct ps. simpl in *. now subst.
Qed.

Lemma find_updated id o' (l : list GameObject) :
  (exists x, In x l /\ go_id x = id) ->
  (forall x, In x l -> go_id x <> id -> go_id x <> go_id o') ->
  find (fun x => String.eqb (go_id x) (go_id o'))
       (map (fun x => if String.eqb (go_id x) id then o' else x) l)
  = Some o'.
Proof.
  induction l as [| x l IH]; intros [y [Hy Hid]] Hother; [easy |].
  simpl. destruct (String.eqb (go_id x) id) eqn:E.
  - now rewrite String.eqb_refl.
  - apply String.eqb_neq in E.
    assert (E' : String.eqb (go_id x) (go_id o') = false).
    { apply String.eqb_neq, Hother; [now left | exact E]. }
    rewrite E'. apply IH.
    + destruct Hy as [-> | Hy]; [contradiction |]. exists y. auto.
    + intros z Hz. apply Hother. now right.
Qed.

Lemma has_gameObject_false st id x :
  has_gameObject st id = false -> In x (gameObjects st) -> go_id x <> id.
Proof.
  unfold has_gameObject. intros H Hx Heq.
  assert (Ht : existsb (fun o => String.eqb (go_id o) id) (gameObjects st)
               = true).
  { apply existsb_exists. exists x. split; [exact Hx |].
    now apply String.eqb_eq. }
  congruence.
Qed.

(** X5. A successful [updateById] touches one game object only: the tag,
    game and [inputToGames] tables are as before, every game object with
    another id is still in the table, the table keeps its size, the score
    rows are as before when the data carries no new id, and exactly one
    store operation is logged. *)
Theorem updateById_frame now input w out w' :
  updateById now input w = (Ok out, w') ->
  tags (db w') = tags (db w) /\
  games (db w') = games (db w) /\
  inputToGames (db w') = inputToGames (db w) /\
  (forall x, In x (gameObjects (db w)) -> go_id x <> input_id input ->
             In x (gameObjects (db w'))) /\
  List.length (gameObjects (db w')) = List.length (gameObjects (db w)) /\
  (data_id (input_data input) = None ->
   playerScores (db w') = playerScores (db w)) /\
  calls w' = calls w ++ [GameObjectUpdate].
Proof.
  intros H. apply updateById_success in H. destruct H as [H Hcalls].
  apply gameObject_update_success in H.
  destruct H as [o [_ [_ [Hid [_ [_ [Ho' Hst]]]]]]].
  rewrite Hst. simpl.
  split; [reflexivity |]. split; [reflexivity |]. split; [reflexivity |].
  split; [| split; [apply length_map | split; [| exact Hcalls]]].
  - intros x Hx Hne. apply in_map_iff. exists x. split; [| exact Hx].
    apply String.eqb_neq in Hne. now rewrite Hne.
  - intros Hnone. rewrite Ho'. simpl. rewrite Hnone. simpl.
    apply playerScores_same_id.
Qed.

Lemma gameObject_update_find now id data st o' st' :
  gameObject_update now id data st = Some (o', st') ->
  find (fun x => String.eqb (go_id x) (go_id o')) (gameObjects st')
  = Some o'.
Proof.
  intros H. apply gameObject_update_success in H.
  destruct H as [o [_ [Hin [Hid [_ [Hguard [_ Hst]]]]]]].
  rewrite Hst. simpl. apply find_updated.
  - exists o. auto.
  - intros x Hx Hne. destruct Hguard as [Hsame | Hfree].
    + now rewrite Hsame.
    + now apply (has_gameObject_false st).
Qed.

Lemma gameObject_update_again now id data st o' st' :
  gameObject_update now id data st = Some (o', st') ->
  set_id data = None ->
  gameObject_update now id data st' = Some (o', st').
Proof.
  intros H Hnone.
  pose proof (gameObject_update_find _ _ _ _ _ _ H) as Hfind.
  apply gameObject_update_success in H.
  destruct H as [o [_ [Hin [Hid [Htags [_ [Ho' Hst]]]]]]].
  rewrite Hnone in Ho'. cbn [or_else] in Ho'.
  assert (Hsame : go_id o' = id) by now rewrite Ho'.
  assert (Htags' : forallb (has_tag st') (or_else (tags_connect data) [])
                   = true).
  { rewrite Hst. exact Htags. }
  assert (Hobj :
    {| go_id := id;
       go_createdAt := go_createdAt o';
       go_updatedAt := if writes_column data then now else go_updatedAt o';
       go_name := or_else (set_name data) (go_name o');
       go_description :=
         match set_description data with
         | Some d => Some d
         | None => go_description o'
         end |} = o').
  { rewrite Ho'. cbn. unfold writes_column. rewrite Hnone.
    destruct (set_name data), (set_description data); reflexivity. }
  rewrite Hsame in Hfind, Hst.
  unfold gameObject_update.
  rewrite Hfind, Hnone. cbn [or_else].
  rewrite Htags', !Hsame, String.eqb_refl, Hobj. cbn [negb andb].
  f_equal. f_equal. clear Hfind Htags' Hobj.
  subst st'.
  cbn [tags games gameObjects playerScores gameObjectTags inputToGames].
  rewrite map_map, playerScores_same_id, !rename_fst_same.
  f_equal.
  - apply map_ext. intros x.
    destruct (String.eqb (go_id x) id) eqn:E.
    + now rewrite Hsame, String.eqb_refl.
    + now rewrite E.
  - apply connect_pairs_present.
    intros t Ht. now apply connect_pairs_connects.
Qed.

Lemma updateById_find_updated now input w out w' :
  updateById now input w = (Ok out, w') ->
  find (fun x => String.eqb (go_id x) (go_id (updatedGameObject out)))
       (gameObjects (db w'))
  = Some (updatedGameObject out).
Proof.
  intros H. apply updateById_success in H. destruct H as [H _].
  apply gameObject_update_success in H.
  destruct H as [o [_ [Hin [Hid [_ [Hguard [_ Hst]]]]]]].
  rewrite Hst. simpl. apply find_updated.
  - exists o. auto.
  - intros x Hx Hne. destruct Hguard as [Hsame | Hfree].
    + now rewrite Hsame.
    + now apply (has_gameObject_false (db w)).
Qed.

(** X6. After a successful [updateById], looking the game object up by the
    id it has now, the new one when the id was changed, finds the updated
    object that the procedure returned, and that object carries the
    supplied id, name and description. *)
Theorem updateById_then_find now input w out w' :
  updateById now input w = (Ok out, w') ->
  find (fun x => String.eqb (go_id x) (go_id (updatedGameObject out)))
       (gameObjects (db w'))
  = Some (updatedGameObject out) /\
  (forall v, data_id (input_data input) = Some v ->
             go_id (updatedGameObject out) = v) /\
  (forall v, data_name (input_data input) = Some v ->
             go_name (updatedGameObject out) = v) /\
  (forall v, data_description (input_data input) = Some v ->
             go_description (updatedGameObject out) = Some v).
Proof.
  intros H. split; [exact (updateById_find_updated _ _ _ _ _ H) |].
  apply updateById_success in H. destruct H as [H _].
  apply gameObject_update_success in H.
  destruct H as [o [_ [_ [_ [_ [_ [Ho' _]]]]]]].
  rewrite Ho'. cbn.
  repeat split; intros v Hv; now rewrite Hv.
Qed.

(** X7. [updateById] never detaches a tag and adds nothing that is there
    already: when the data carries no new id and every listed tag is
    already related to the game object, which is the case for an edit of
    the name or the description and for a tag selection from which tags
    were only removed, a successful update leaves the relation between game
    objects and tags exactly as it was. *)
Theorem updateById_tags_unchanged now input w out w' :
  updateById now input w = (Ok out, w') ->
  data_id (input_data input) = None ->
  (forall ts t,
     data_tags (input_data input) = Some ts -> In t ts ->
     In (input_id input, t) (gameObjectTags (db w))) ->
  gameObjectTags (db w') = gameObjectTags (db w).
Proof.
  intros H Hnone Hpresent.
  apply updateById_success in H. destruct H as [H _].
  apply gameObject_update_success in H.
  destruct H as [o [_ [_ [Hid [_ [_ [Ho' Hst]]]]]]].
  assert (Hsame : go_id (updatedGameObject out) = input_id input).
  { rewrite Ho'. simpl. now rewrite Hnone. }
  rewrite Hst. simpl. rewrite Hsame, rename_fst_same.
  apply connect_pairs_present. intros t Ht.
  destruct (data_tags (input_data input)) as [ts |] eqn:E; [| easy].
  now apply (Hpresent ts).
Qed.

(** X8. [updateById] is idempotent when the id is not changed: applied a
    second time with the same data and the same timestamp, it succeeds
    again, returns the same game object and leaves the store as the first
    application left it. *)
Theorem updateById_idempotent now input w out w' :
  updateById now input w = (Ok out, w') ->
  data_id (input_data input) = None ->
  updateById now input w'
  = (Ok out, {| db := db w'; calls := calls w' ++ [GameObjectUpdate] |}).
Proof.
  intros H Hnone. apply updateById_success in H. destruct H as [H _].
  apply gameObject_update_again in H; [| exact Hnone].
  unfold updateById. rewrite H. now destruct out.
Qed.

(** ** Further properties of [GameObjectsTable] *)

Lemma adjustPageIndex_cases pc p :
  (0 <= pc)%Z ->
  match adjustPageIndex pc p with
  | None => pc = 0%Z \/ (0 <= pageIndex p < pc)%Z
  | Some p' =>
      adjustPageIndex pc p' = None /\
      pageSize p' = pageSize p /\
      ((0 < pc)%Z -> (0 <= pageIndex p' < pc)%Z)
  end.
Proof.
  intros Hpc. unfold adjustPageIndex at 1.
  destruct (Z.geb_spec (pageIndex p) pc) as [Hge | Hlt].
  - split; [| split; [reflexivity | simpl; lia]].
    unfold adjustPageIndex. simpl.
    destruct (Z.geb_spec (pc - 1) pc); [lia |].
    destruct (Z.eqb_spec pc 0); [reflexivity |].
    destruct (Z.ltb_spec (pc - 1) 0); [lia | reflexivity].
  - destruct (Z.eqb_spec pc 0) as [-> | Hne]; [now left |].
    destruct (Z.ltb_spec (pageIndex p) 0) as [Hneg | Hpos].
    + split; [| split; [reflexivity | simpl; lia]].
      unfold adjustPageIndex. simpl.
      destruct (Z.geb_spec 0 pc); [lia |].
      destruct (Z.eqb_spec pc 0); [lia | reflexivity].
    + right. lia.
Qed.

Lemma rerun_once fuel pc p :
  (0 <= pc)%Z -> rerun (S fuel) pc p = rerun 1 pc p.
Proof.
  intros Hpc. pose proof (adjustPageIndex_cases pc p Hpc) as H.
  simpl. destruct (adjustPageIndex pc p) as [p' |]; [| reflexivity].
  destruct H as [Hnone _]. destruct fuel; [reflexivity |].
  simpl. now rewrite Hnone.
Qed.

Lemma pageCount_nonneg count p :
  (0 < pageSize p)%Z -> (0 <= count)%Z ->
  (0 <= pageCount (Some count) p)%Z /\
  (pageCount (Some count) p = 0%Z <-> count = 0%Z).
Proof.
  intros Hsize Hcount. simpl.
  pose proof (ceil_div_bounds count (pageSize p) Hsize) as [Hlo Hhi].
  split; [nia |]. split; [nia |].
  intros ->. reflexivity.
Qed.

(** X9. For a page count that is not negative, the page-index effect makes
    at most one update: run again after it, the effect returns without a
    further one, so the re-run loop stops; the update keeps the page size,
    and when there is at least one page the settled index is a valid page,
    between 0 and [pageCount - 1]. *)
Theorem adjustPageIndex_settles pc p :
  (0 <= pc)%Z ->
  (forall fuel, rerun (S fuel) pc p = rerun 1 pc p) /\
  adjustPageIndex pc (rerun 1 pc p) = None /\
  pageSize (rerun 1 pc p) = pageSize p /\
  ((0 < pc)%Z -> (0 <= pageIndex (rerun 1 pc p) < pc)%Z).
Proof.
  intros Hpc. split; [intros fuel; now apply rerun_once |].
  pose proof (adjustPageIndex_cases pc p Hpc) as H. simpl.
  destruct (adjustPageIndex pc p) as [p' |] eqn:E.
  - exact H.
  - split; [exact E |]. split; [reflexivity |]. lia.
Qed.

(** X10. Once the effect has settled, the listing query asks for a window
    that starts inside the data when there is any: for a positive count,
    [0 <= skip < count] and [take] is the page size. With a count of 0 and
    an index that was not negative, the query is sent with the negative
    [skip] of [- pageSize]. *)
Theorem gameObjectsQuery_window p count globalFilter sorting tag :
  (0 < pageSize p)%Z ->
  (0 <= count)%Z ->
  let settled := rerun 1 (pageCount (Some count) p) p in
  let q := gameObjectsQuery_input settled globalFilter sorting tag in
  take q = pageSize p /\
  ((0 < count)%Z -> (0 <= skip q < count)%Z) /\
  (count = 0%Z -> (0 <= pageIndex p)%Z -> skip q = (- pageSize p)%Z).
Proof.
  intros Hsize Hcount settled q.
  destruct (pageCount_nonneg count p Hsize Hcount) as [Hpc Hzero].
  pose proof (adjustPageIndex_cases (pageCount (Some count) p) p Hpc)
    as Hcases.
  pose proof (ceil_div_bounds count (pageSize p) Hsize) as [Hlo Hhi].
  change (ceil_div count (pageSize p)) with (pageCount (Some count) p)
    in Hlo, Hhi.
  assert (Hcount0 : count = 0%Z -> pageCount (Some count) p = 0%Z)
    by apply Hzero.
  subst q settled. unfold gameObjectsQuery_input. cbn [take skip rerun].
  remember (pageCount (Some count) p) as pc eqn:Epc.
  remember (pageSize p) as size eqn:Esize.
  destruct (adjustPageIndex pc p) as [p' |] eqn:E.
  - destruct Hcases as [_ [Hps Hrange]]. rewrite Hps.
    split; [reflexivity |]. split.
    + intros Hpos.
      assert (Hpcpos : (0 < pc)%Z).
      { destruct (Z.eq_dec pc 0) as [Heq | Hne];
          [apply Hzero in Heq; lia | lia]. }
      specialize (Hrange Hpcpos).
      assert (pageIndex p' * size <= (pc - 1) * size)%Z
        by (apply Z.mul_le_mono_nonneg_r; lia).
      assert (0 <= pageIndex p' * size)%Z
        by (apply Z.mul_nonneg_nonneg; lia).
      lia.
    + intros Hc Hidx. rewrite (Hcount0 Hc) in E.
      unfold adjustPageIndex in E.
      destruct (Z.geb_spec (pageIndex p) 0); [| lia].
      injection E as <-. cbn [pageIndex]. lia.
  - split; [now rewrite Esize |]. split.
    + intros Hpos. destruct Hcases as [Heq | Hrange];
        [apply Hzero in Heq; lia |].
      assert (pageIndex p * size <= (pc - 1) * size)%Z
        by (apply Z.mul_le_mono_nonneg_r; lia).
      assert (0 <= pageIndex p * size)%Z
        by (apply Z.mul_nonneg_nonneg; lia).
      lia.
    + intros Hc Hidx. rewrite (Hcount0 Hc) in E.
      unfold adjustPageIndex in E.
      destruct (Z.geb_spec (pageIndex p) 0); [discriminate | lia].
Qed.

(** X11. [getSort] answers for a column from the first entry of the sorting
    state that names it: it is undefined exactly when no entry names the
    column, and otherwise it is "desc" or "asc" as the [desc] flag of that
    first entry says, later entries for the column being ignored. *)
Theorem getSort_first_entry sorting id :
  (getSort sorting id = None <->
   forall s, In s sorting -> cs_id s <> id) /\
  (forall before s after,
     sorting = before ++ s :: after ->
     cs_id s = id ->
     (forall x, In x before -> cs_id x <> id) ->
     getSort sorting id = Some (if cs_desc s then desc else asc)).
Proof.
  unfold getSort. split.
  - destruct (find _ sorting) as [r |] eqn:E.
    + split; [discriminate |]. intros H.
      apply find_some in E. destruct E as [Hin Heq].
      apply String.eqb_eq in Heq. now apply H in Hin.
    + split; [| reflexivity]. intros _ s Hs.
      apply (find_none _ _ E) in Hs. now apply String.eqb_neq.
  - intros before s after -> Hid Hbefore.
    induction before as [| x before IH]; simpl.
    + apply String.eqb_eq in Hid. now rewrite Hid.
    + assert (E : String.eqb (cs_id x) id = false).
      { apply String.eqb_neq, Hbefore. now left. }
      rewrite E. apply IH. intros y Hy. apply Hbefore. now right.
Qed.

(** X12. The options of the tags cell list the tags of the row in order,
    each with the tag's id as value; a label is never empty: it is the
    tag's name, or "Untitled Tag" when the name is empty; and a cell value
    that is not an array gives no option. *)
Theorem selected_options tags_of_row :
  map value (selected (Some tags_of_row)) = map tag_id tags_of_row /\
  (forall o, In o (selected (Some tags_of_row)) ->
             label o <> EmptyString /\
             exists tag, In tag tags_of_row /\ value o = tag_id tag /\
                         (tag_name tag <> EmptyString ->
                          label o = tag_name tag) /\
                         (tag_name tag = EmptyString ->
                          label o = "Untitled Tag")) /\
  selected None = [].
Proof.
  split; [| split; [| reflexivity]].
  - unfold selected. rewrite map_map. reflexivity.
  - intros o Ho. unfold selected in Ho. apply in_map_iff in Ho.
    destruct Ho as [tag [<- Hin]]. simpl. split.
    + destruct (tag_name tag) eqn:E; simpl; discriminate.
    + exists tag. split; [exact Hin |]. split; [reflexivity |].
      destruct (tag_name tag); simpl; split; congruence.
Qed.

(** ** The table's cells and [CustomEditable] *)

Lemma handleUpdateGameObject_cases now id data c :
  match updateById now {| input_id := id; input_data := data |} (server c)
  with
  | (Ok _, w') =>
      handleUpdateGameObject now id data c
      = (Resolved,
         {| server := w'; events := events c ++ [Invalidate] |})
  | (Err _, w') =>
      handleUpdateGameObject now id data c
      = (Resolved,
         {| server := w';
            events := events c
                      ++ [ConsoleError;
                          WindowAlert ("Error updating tag" ++ newline
                                       ++ " See console for details")] |})
  end.
Proof.
  unfold handleUpdateGameObject, mutateAsync, emit.
  destruct (updateById now _ (server c)) as [[out | e] w'];
    simpl; [reflexivity |].
  now rewrite <- app_assoc.
Qed.

(** X13. [handleUpdateGameObject] never rejects. When the server accepts
    the update, the cached queries are invalidated and nothing is reported;
    when the server refuses it, the store is as before, the error is logged
    and the user gets the alert "Error updating tag", and the queries are
    not invalidated. *)
Theorem handleUpdateGameObject_never_rejects now id data c :
  exists c',
    handleUpdateGameObject now id data c = (Resolved, c') /\
    ((exists out,
        fst (updateById now {| input_id := id; input_data := data |}
               (server c)) = Ok out /\
        events c' = events c ++ [Invalidate]) \/
     (exists e,
        fst (updateById now {| input_id := id; input_data := data |}
               (server c)) = Err e /\
        db (server c') = db (server c) /\
        events c'
        = events c
          ++ [ConsoleError;
              WindowAlert ("Error updating tag" ++ newline
                           ++ " See console for details")])).
Proof.
  pose proof (handleUpdateGameObject_cases now id data c) as H.
  destruct (updateById now {| input_id := id; input_data := data |}
              (server c)) as [[out | e] w'] eqn:E.
  - eexists. split; [exact H |]. left. exists out. split; reflexivity.
  - eexists. split; [exact H |]. right. exists e.
    split; [reflexivity |]. split; [| reflexivity].
    simpl. unfold updateById in E.
    destruct (gameObject_update _ _ _ _) as [[o st'] |];
      [discriminate |].
    now injection E as _ <-.
Qed.

(** X14. A cell of the table never goes back to its previous value: with
    [handleUpdateGameObject] as its [handleSave], [CustomEditable] keeps the
    live value the user typed whether the server accepts the update or
    refuses it, and it never shows its own "Invalid Update" alert, because
    the handler has caught the error. *)
Theorem table_cell_never_reverts now id (cell_data : string -> UpdateData)
  props nextValue liveValue c :
  handleSave props
  = Some (fun v => handleUpdateGameObject now id (cell_data v)) ->
  fst (handleSubmit props nextValue liveValue c) = liveValue /\
  snd (handleSubmit props nextValue liveValue c)
  = snd (handleUpdateGameObject now id (cell_data nextValue) c) /\
  forall msg,
    In (WindowAlert msg)
       (events (snd (handleSubmit props nextValue liveValue c))) ->
    In (WindowAlert msg) (events c) \/
    msg = ("Error updating tag" ++ newline ++ " See console for details")%string.
Proof.
  intros Hsave. unfold handleSubmit. rewrite Hsave.
  pose proof (handleUpdateGameObject_cases now id (cell_data nextValue) c)
    as H.
  destruct (updateById now _ (server c)) as [[out | e] w'];
    rewrite H; simpl; (split; [reflexivity |]); (split; [reflexivity |]);
    intros msg Hin; apply in_app_or in Hin;
    destruct Hin as [Hin | Hin]; auto; simpl in Hin.
  - destruct Hin as [Hin | []]. discriminate.
  - destruct Hin as [Hin | [Hin | []]]; [discriminate |].
    injection Hin as <-. now right.
Qed.

(** X18. The tags cell cannot detach a tag: when every tag of the new
    selection is already related to the row, as after removing tags in the
    multi-select, [handleUpdateGameObject] leaves the relation between game
    objects and tags on the server exactly as it was, whether the update
    succeeds or fails. *)
Theorem tags_cell_cannot_detach now id nextTags c :
  (forall t, In t nextTags ->
             In (id, t) (gameObjectTags (db (server c)))) ->
  gameObjectTags
    (db (server (snd (handleUpdateGameObject now id
                        (tags_cell_data nextTags) c))))
  = gameObjectTags (db (server c)).
Proof.
  intros Hpresent.
  pose proof (handleUpdateGameObject_cases now id
                (tags_cell_data nextTags) c) as H.
  destruct (updateById now _ (server c)) as [[out | e] w'] eqn:E;
    rewrite H; simpl.
  - apply updateById_success in E. destruct E as [E _].
    apply gameObject_update_success in E.
    destruct E as [o [_ [_ [_ [_ [_ [Ho' Hst]]]]]]].
    cbn in Ho', Hst. rewrite Hst, Ho'. cbn.
    rewrite rename_fst_same. now apply connect_pairs_present.
  - unfold updateById in E.
    destruct (gameObject_update _ _ _ _) as [[o st'] |];
      [discriminate |].
    now injection E as _ <-.
Qed.

(** ** [redirectToGame] *)

Section RedirectToGameProperties.
Variable toUpperCase : string -> string.
Variable parseInt : string -> ParsedInt.

Lemma truthy_true s : truthy s = true <-> s <> EmptyString.
Proof. destruct s; simpl; split; congruence. Qed.

Lemma not_lt_1 n :
  isNaN n = false -> lt_1 n = false ->
  number_truthy n = true /\
  (n = Infinity false \/ exists z, n = Integer z /\ (1 <= z)%Z).
Proof.
  destruct n as [| [|] | z]; simpl; try discriminate; intros _ H.
  - split; [reflexivity | now left].
  - apply Z.ltb_ge in H. split.
    + apply negb_true_iff, Z.eqb_neq. lia.
    + right. exists z. split; [reflexivity | exact H].
Qed.

Lemma numItems_params_inr s ps :
  numItems_params toUpperCase parseInt s = inr ps ->
  (toUpperCase s = "ALL" /\ ps = [("numItems", PString "ALL")]) \/
  (toUpperCase s <> "ALL" /\
   ps = [("numItems", PNumber (parseInt s))] /\
   (parseInt s = Infinity false \/
    exists z, parseInt s = Integer z /\ (1 <= z)%Z)).
Proof.
  unfold numItems_params.
  destruct (String.eqb (toUpperCase s) "ALL") eqn:Eall.
  - intros H. injection H as <-. left.
    apply String.eqb_eq in Eall. auto.
  - apply String.eqb_neq in Eall.
    destruct (isNaN (parseInt s)) eqn:Enan; [discriminate |]. simpl.
    destruct (lt_1 (parseInt s)) eqn:Elt; [discriminate |].
    destruct (not_lt_1 _ Enan Elt) as [Htruthy Hval].
    simpl. rewrite Htruthy. intros H. injection H as <-. right. auto.
Qed.

Lemma numItems_params_inl s v :
  numItems_params toUpperCase parseInt s = inl v ->
  toUpperCase s <> "ALL" /\
  ((parseInt s = NaN /\ v = PString s) \/
   (v = PNumber (parseInt s) /\ lt_1 (parseInt s) = true)).
Proof.
  unfold numItems_params. intros H.
  destruct (String.eqb (toUpperCase s) "ALL") eqn:Eall; [discriminate |].
  apply String.eqb_neq in Eall. split; [exact Eall |].
  destruct (isNaN (parseInt s)) eqn:Enan; simpl in H.
  - injection H as <-. left.
    destruct (parseInt s); try discriminate. auto.
  - destruct (lt_1 (parseInt s)) eqn:Elt.
    + injection H as <-. right. auto.
    + discriminate.
Qed.

(** X15. When [redirectToGame] navigates, it goes to [/api/play2bttns] with
    a non-empty [gameId] and a non-empty [playerId] from the prompts, then
    an optional [numItems], then the [callbackUrl] made of the current
    address and a slash, in this order. [numItems] is left out exactly when
    its prompt was cancelled or left blank; otherwise it is "ALL" or the
    number [parseInt] reads from the answer, which is then at least 1. *)
Theorem redirectToGame_navigated window shown path queryParams :
  redirectToGame toUpperCase parseInt window
  = (shown, Navigated path queryParams) ->
  exists w gameId playerId numItems,
    window = Some w /\
    prompt w gameId_prompt = Some gameId /\ gameId <> EmptyString /\
    prompt w playerId_prompt = Some playerId /\ playerId <> EmptyString /\
    path = "/api/play2bttns" /\
    queryParams
    = [("gameId", PString gameId); ("playerId", PString playerId)]
      ++ numItems
      ++ [("callbackUrl", PString (location_href w ++ "/"))] /\
    match prompt w numItems_prompt with
    | None => numItems = []
    | Some answer =>
        if truthy answer
        then (toUpperCase answer = "ALL" /\
              numItems = [("numItems", PString "ALL")]) \/
             (toUpperCase answer <> "ALL" /\
              numItems = [("numItems", PNumber (parseInt answer))] /\
              (parseInt answer = Infinity false \/
               exists z, parseInt answer = Integer z /\ (1 <= z)%Z))
        else numItems = []
    end.
Proof.
  unfold redirectToGame.
  destruct window as [w |]; [| discriminate].
  destruct (prompt w gameId_prompt) as [gameId |] eqn:Eg; [| discriminate].
  destruct (truthy gameId) eqn:Tg; simpl; [| discriminate].
  destruct (prompt w playerId_prompt) as [playerId |] eqn:Ep;
    [| discriminate].
  destruct (truthy playerId) eqn:Tp; simpl; [| discriminate].
  apply truthy_true in Tg, Tp.
  destruct (prompt w numItems_prompt) as [answer |] eqn:En.
  - destruct (truthy answer) eqn:Tn.
    + destruct (numItems_params toUpperCase parseInt answer) as [v | ps]
        eqn:Eparams; [discriminate |].
      intros H. injection H as _ <- <-.
      exists w, gameId, playerId, ps. rewrite En, Tn.
      repeat (split; [auto; fail |]).
      now apply numItems_params_inr.
    + intros H. injection H as _ <- <-.
      exists w, gameId, playerId, []. rewrite En, Tn.
      repeat (split; [auto; fail |]). reflexivity.
  - intros H. injection H as _ <- <-.
    exists w, gameId, playerId, []. rewrite En.
    repeat (split; [auto; fail |]). reflexivity.
Qed.

(** X16. When [redirectToGame] ends with the "Invalid value" alert, all
    three prompts were answered, and the [numItems] answer is not empty and
    not "ALL" in any letter case: either [parseInt] reads no number from it
    and the alert shows the answer as typed, or it reads a number below 1
    and the alert shows that number. Conversely such an answer always ends
    with the alert and never with a navigation. *)
Theorem redirectToGame_alerted w gameId playerId answer :
  prompt w gameId_prompt = Some gameId -> gameId <> EmptyString ->
  prompt w playerId_prompt = Some playerId -> playerId <> EmptyString ->
  prompt w numItems_prompt = Some answer ->
  forall v,
    redirectToGame toUpperCase parseInt (Some w)
    = ([gameId_prompt; playerId_prompt; numItems_prompt], Alerted v)
    <->
    answer <> EmptyString /\ toUpperCase answer <> "ALL" /\
    ((parseInt answer = NaN /\ v = PString answer) \/
     (v = PNumber (parseInt answer) /\ lt_1 (parseInt answer) = true)).
Proof.
  intros Eg Tg Ep Tp En v. apply truthy_true in Tg, Tp.
  unfold redirectToGame. rewrite Eg, Tg, Ep, Tp, En. simpl.
  destruct (truthy answer) eqn:Tn.
  - apply truthy_true in Tn. split.
    + destruct (numItems_params toUpperCase parseInt answer) as [v' | ps]
        eqn:Eparams; [| discriminate].
      intros H. injection H as <-.
      split; [exact Tn |]. now apply numItems_params_inl.
    + intros [_ [Hall Hcases]]. unfold numItems_params.
      apply String.eqb_neq in Hall. rewrite Hall.
      destruct Hcases as [[Hnan ->] | [-> Hlt]].
      * now rewrite Hnan.
      * destruct (parseInt answer) as [| neg | z] eqn:E;
          [discriminate | |]; simpl in *; now rewrite Hlt.
  - split; [discriminate |]. intros [Hne _].
    apply truthy_true in Hne. congruence.
Qed.

(** X17. [redirectToGame] returns without alert or navigation exactly when
    it runs without a window, or the game id prompt is cancelled or left
    blank, or the player id prompt is; it then has shown no prompt, one
    prompt or two prompts respectively: the player is not asked for
    anything after an empty answer. *)
Theorem redirectToGame_returned window :
  snd (redirectToGame toUpperCase parseInt window) = Returned <->
  (window = None /\
   fst (redirectToGame toUpperCase parseInt window) = []) \/
  (exists w,
     window = Some w /\
     (prompt w gameId_prompt = None \/
      prompt w gameId_prompt = Some EmptyString) /\
     fst (redirectToGame toUpperCase parseInt window) = [gameId_prompt]) \/
  (exists w gameId,
     window = Some w /\
     prompt w gameId_prompt = Some gameId /\ gameId <> EmptyString /\
     (prompt w playerId_prompt = None \/
      prompt w playerId_prompt = Some EmptyString) /\
     fst (redirectToGame toUpperCase parseInt window)
     = [gameId_prompt; playerId_prompt]).
Proof.
  unfold redirectToGame. destruct window as [w |].
  - destruct (prompt w gameId_prompt) as [gameId |] eqn:Eg.
    + destruct gameId as [| c gameId]; simpl.
      * split; [| reflexivity]. intros _. right. left. exists w. auto.
      * destruct (prompt w playerId_prompt) as [playerId |] eqn:Ep.
        -- destruct playerId as [| c' playerId]; simpl.
           ++ split; [| reflexivity]. intros _. right. right.
              exists w, (String c gameId).
              repeat (split; [auto; discriminate |]). auto.
           ++ split.
              ** destruct (prompt w numItems_prompt) as [answer |];
                   [destruct (truthy answer);
                    [destruct (numItems_params _ _ answer) |] |];
                   discriminate.
              ** intros [[H _] | [[w' [Hw [[H | H] _]]]
                                 | [w' [g [Hw [_ [_ [[H | H] _]]]]]]]];
                   try discriminate; injection Hw as <-; congruence.
        -- split; [| reflexivity]. intros _. right. right.
           exists w, (String c gameId).
           repeat (split; [auto; discriminate |]). auto.
    + split; [| reflexivity]. intros _. right. left. exists w. auto.
  - split; [| reflexivity]. intros _. left. auto.
Qed.

End RedirectToGameProperties.

(** ** The further properties at the sample data *)

Lemma getPlayerScores_include_only_true_string_witness :
  authorized api_key_ctx "p1" = true /\
  JBool true <> JString "true" /\
  exists out,
    fst (getPlayerScores (js := sample_runtime) (ord := storage_order) api_key_ctx
           (request "g1" "p1" (JBool true)) sample_world) = Ok out /\
    forall r, In r (out_playerScores out) -> out_gameObject r = None.
Proof.
  split; [reflexivity |]. split; [discriminate |].
  destruct (getPlayerScores_include_only_true_string
              (js := sample_runtime) (ord := storage_order) api_key_ctx sample_world
              "g1" "p1" (JBool true) eq_refl)
    as [out [Hout [_ Hnone]]].
  exists out. split; [exact Hout |]. apply Hnone. discriminate.
Defined.

Lemma getPlayerScores_same_for_authorized_witness :
  authorized (player_ctx "p1") "p1" = true /\
  authorized api_key_ctx "p1" = true /\
  getPlayerScores (js := sample_runtime) (ord := storage_order) (player_ctx "p1")
    (request "g1" "p1" JUndefined) sample_world
  = getPlayerScores (js := sample_runtime) (ord := storage_order) api_key_ctx
      (request "g1" "p1" JUndefined) sample_world.
Proof.
  split; [reflexivity |]. split; [reflexivity |].
  apply (getPlayerScores_same_for_authorized (js := sample_runtime) (ord := storage_order));
    reflexivity.
Defined.


Lemma updateById_frame_witness :
  exists out w',
    updateById 5%Z sample_update sample_world = (Ok out, w') /\
    tags (db w') = tags sample_store /\
    In (sample_gameObject "go1") (gameObjects (db w')) /\
    playerScores (db w') = playerScores sample_store /\
    calls w' = [GameObjectUpdate].
Proof.
  destruct (updateById 5%Z sample_update sample_world) as [[out | e] w']
    eqn:E; [| discriminate E].
  exists out, w'. split; [reflexivity |].
  destruct (updateById_frame 5%Z sample_update sample_world out w' E)
    as [Htags [_ [_ [Hother [_ [Hscores Hcalls]]]]]].
  split; [exact Htags |].
  split; [apply Hother; [simpl; auto | discriminate] |].
  split; [exact (Hscores eq_refl) | exact Hcalls].
Defined.

Lemma updateById_then_find_witness :
  exists out w',
    updateById 5%Z sample_update sample_world = (Ok out, w') /\
    find (fun x => String.eqb (go_id x) "go2") (gameObjects (db w'))
    = Some (updatedGameObject out) /\
    go_name (updatedGameObject out) = "renamed".
Proof.
  destruct (updateById 5%Z sample_update sample_world) as [[out | e] w']
    eqn:E; [| discriminate E].
  exists out, w'. split; [reflexivity |].
  destruct (updateById_then_find 5%Z sample_update sample_world out w' E)
    as [Hfind [_ [Hname _]]].
  split; [| exact (Hname "renamed" eq_refl)].
  injection E as <- <-. exact Hfind.
Defined.

Lemma updateById_tags_unchanged_witness :
  exists out w',
    updateById 5%Z
      {| input_id := "go1"; input_data := name_cell_data "renamed" |}
      sample_world = (Ok out, w') /\
    gameObjectTags (db w') = gameObjectTags sample_store.
Proof.
  destruct (updateById 5%Z
              {| input_id := "go1"; input_data := name_cell_data "renamed" |}
              sample_world) as [[out | e] w'] eqn:E; [| discriminate E].
  exists out, w'. split; [reflexivity |].
  apply (updateById_tags_unchanged 5%Z
           {| input_id := "go1"; input_data := name_cell_data "renamed" |}
           sample_world out w' E).
  - reflexivity.
  - intros ts t Hts. discriminate Hts.
Defined.

Lemma updateById_idempotent_witness :
  exists out w',
    updateById 5%Z sample_update sample_world = (Ok out, w') /\
    updateById 5%Z sample_update w'
    = (Ok out, {| db := db w'; calls := calls w' ++ [GameObjectUpdate] |}).
Proof.
  destruct (updateById 5%Z sample_update sample_world) as [[out | e] w']
    eqn:E; [| discriminate E].
  exists out, w'. split; [reflexivity |].
  apply (updateById_idempotent 5%Z sample_update sample_world out w' E).
  reflexivity.
Defined.

Lemma adjustPageIndex_settles_witness :
  (0 <= 3)%Z /\
  rerun 9 3 {| pageIndex := 7%Z; pageSize := 10%Z |}
  = rerun 1 3 {| pageIndex := 7%Z; pageSize := 10%Z |} /\
  (0 <= pageIndex (rerun 1 3 {| pageIndex := 7%Z; pageSize := 10%Z |})
   < 3)%Z.
Proof.
  assert (Hpc : (0 <= 3)%Z) by discriminate.
  destruct (adjustPageIndex_settles 3
              {| pageIndex := 7%Z; pageSize := 10%Z |} Hpc)
    as [Hrerun [_ [_ Hrange]]].
  split; [exact Hpc |]. split; [exact (Hrerun 8%nat) |].
  apply Hrange. reflexivity.
Defined.

Lemma gameObjectsQuery_window_witness :
  (0 < 10)%Z /\ (0 <= 25)%Z /\
  (0 <= skip (gameObjectsQuery_input
                (rerun 1
                   (pageCount (Some 25%Z)
                      {| pageIndex := 7%Z; pageSize := 10%Z |})
                   {| pageIndex := 7%Z; pageSize := 10%Z |})
                "" [] None)
   < 25)%Z.
Proof.
  split; [reflexivity |]. split; [discriminate |].
  destruct (gameObjectsQuery_window
              {| pageIndex := 7%Z; pageSize := 10%Z |} 25%Z "" [] None
              eq_refl)
    as [_ [Hwindow _]]; [discriminate |].
  apply Hwindow. reflexivity.
Defined.

Lemma table_cell_never_reverts_witness :
  fst (handleSubmit
         {| prop_value := Some "old name";
            placeholder := "No name";
            handleSave :=
              Some (fun v =>
                      handleUpdateGameObject 5%Z "missing"
                        (name_cell_data v));
            isEditable := true |}
         "typed" (Some "typed") sample_client)
  = Some "typed".
Proof.
  apply (table_cell_never_reverts 5%Z "missing" name_cell_data
           {| prop_value := Some "old name";
              placeholder := "No name";
              handleSave :=
                Some (fun v =>
                        handleUpdateGameObject 5%Z "missing"
                          (name_cell_data v));
              isEditable := true |}
           "typed" (Some "typed") sample_client).
  reflexivity.
Defined.

Lemma redirectToGame_navigated_witness :
  exists queryParams,
    redirectToGame sample_toUpperCase sample_parseInt
      (Some (sample_window (Some "g1") (Some "p1") (Some "5")))
    = ([gameId_prompt; playerId_prompt; numItems_prompt],
       Navigated "/api/play2bttns" queryParams) /\
    exists numItems,
      queryParams
      = [("gameId", PString "g1"); ("playerId", PString "p1")]
        ++ numItems
        ++ [("callbackUrl", PString "http://localhost:3000/")].
Proof.
  eexists. split; [reflexivity |].
  destruct (redirectToGame_navigated sample_toUpperCase sample_parseInt
              (Some (sample_window (Some "g1") (Some "p1") (Some "5")))
              _ _ _ eq_refl)
    as [w [gameId [playerId [numItems [Hw [Hg [_ [Hp [_ [_ [Hq _]]]]]]]]]]].
  injection Hw as <-. exists numItems.
  injection Hg as <-. injection Hp as <-. exact Hq.
Defined.

Lemma redirectToGame_alerted_witness :
  redirectToGame sample_toUpperCase sample_parseInt
    (Some (sample_window (Some "g1") (Some "p1") (Some "0")))
  = ([gameId_prompt; playerId_prompt; numItems_prompt],
     Alerted (PNumber (Integer 0))).
Proof.
  apply (redirectToGame_alerted sample_toUpperCase sample_parseInt
           (sample_window (Some "g1") (Some "p1") (Some "0"))
           "g1" "p1" "0"); try reflexivity; try discriminate.
  split; [discriminate |]. split; [discriminate |].
  right. split; reflexivity.
Defined.

Lemma tags_cell_cannot_detach_witness :
  (forall t, In t ["t1"] ->
             In ("go1", t) (gameObjectTags (db (server sample_client)))) /\
  gameObjectTags
    (db (server (snd (handleUpdateGameObject 5%Z "go1"
                        (tags_cell_data ["t1"]) sample_client))))
  = gameObjectTags sample_store.
Proof.
  assert (H : forall t, In t ["t1"] ->
                In ("go1", t) (gameObjectTags (db (server sample_client)))).
  { intros t [<- | []]. simpl. auto. }
  split; [exact H |].
  apply (tags_cell_cannot_detach 5%Z "go1" ["t1"] sample_client H).
Defined.
